(** * proxy_litellm: a reverse proxy in front of a LiteLLM endpoint

    A shallow embedding of [proxy_litellm.py] and the properties of its
    request rewriting: the [app_id] query parameter, the header filter, the
    proxy's own credential headers, the relay of the upstream reply and the
    error responses.

    Strings are Python [str] values over the code points 0..255 (the
    names and values of inbound headers are decoded from the wire as
    latin-1, one character per byte); the header values of an upstream
    reply, which the HTTP client may decode from UTF-8, are lists of code
    points. Python dictionaries keep insertion order, so they are
    association lists with the dictionary operations written out; the
    environment and the excluded header names, where order plays no part,
    are a [gmap] and a [gset]. *)

From Stdlib Require Import String Ascii NArith ZArith.
From stdpp Require Import base option list strings gmap.

(** ** Python values used by the script *)

Module Py.

(** [str.lower] on one character of the range 0..255: the ASCII capitals
    and the Latin-1 capitals (all of 0xC0..0xDE but the multiplication
    sign 0xD7) move up by 32. *)
Definition lower_char (c : ascii) : ascii :=
  let n := N_of_ascii c in
  if ((65 <=? n) && (n <=? 90) || (192 <=? n) && (n <=? 222) && negb (n =? 215))%N
  then ascii_of_N (n + 32)
  else c.

(** [s.lower()] *)
Fixpoint lower (s : string) : string :=
  match s with
  | EmptyString => EmptyString
  | String c rest => String (lower_char c) (lower rest)
  end.

(** [s.startswith(p)] *)
Definition startswith (s p : string) : bool := String.prefix p s.

(** Truth value of a [str]: the empty string is false. *)
Definition truthy (s : string) : bool :=
  match s with
  | EmptyString => false
  | String _ _ => true
  end.

(** A list of key/value pairs: what [.items()] of a header object or of
    the query parameters yields; a key may occur more than once. *)
Abbreviation items := (list (string * string)).

(** A [dict] with [str] keys and values, in insertion order. *)
Abbreviation dict := (list (string * string)).

(** [d[k] = v]: an existing key keeps its place and takes the new value,
    a new key goes last. *)
Fixpoint dict_set (d : dict) (k v : string) : dict :=
  match d with
  | [] => [(k, v)]
  | (k', v') :: rest =>
      if String.eqb k' k then (k', v) :: rest
      else (k', v') :: dict_set rest k v
  end.

(** [d.get(k)] *)
Fixpoint dict_get (d : dict) (k : string) : option string :=
  match d with
  | [] => None
  | (k', v') :: rest => if String.eqb k' k then Some v' else dict_get rest k
  end.

(** [k in d] *)
Definition dict_has (d : dict) (k : string) : bool :=
  match dict_get d k with Some _ => true | None => false end.

(** [d.update(other)]: the entries of [other] are set one by one. *)
Definition dict_update (d : dict) (other : items) : dict :=
  fold_left (fun acc kv => dict_set acc kv.1 kv.2) other d.

(** [dict(m)]: a new dictionary filled from the entries of [m]. *)
Definition dict_from (m : items) : dict := dict_update [] m.

(** [list(d.keys())] *)
Definition keys (d : items) : list string := d.*1.

(** [os.getenv(name, default)] *)
Definition getenv (env : gmap string string) (name dflt : string) : string :=
  default dflt (env !! name).

(** A [str] that may hold any code point, as the list of its code points:
    the header values of a reply, which the HTTP client may have decoded
    from UTF-8. *)
Abbreviation ustr := (list N).

(** The code points of a string. *)
Definition code_points (s : string) : ustr :=
  N_of_ascii <$> list_ascii_of_string s.

(** [v.encode("latin-1")]: [None] stands for the [UnicodeEncodeError] of a
    code point above 255. *)
Fixpoint latin1 (v : ustr) : option string :=
  match v with
  | [] => Some EmptyString
  | n :: rest =>
      if (n <? 256)%N then String (ascii_of_N n) <$> latin1 rest else None
  end.

(** [bytes.lower] on one byte: the ASCII capitals only. *)
Definition lower_ascii_char (c : ascii) : ascii :=
  let n := N_of_ascii c in
  if ((65 <=? n) && (n <=? 90))%N then ascii_of_N (n + 32) else c.

(** [b.lower()] on [bytes] *)
Fixpoint lower_ascii (s : string) : string :=
  match s with
  | EmptyString => EmptyString
  | String c rest => String (lower_ascii_char c) (lower_ascii rest)
  end.

End Py.

Import Py.

(** ** Configuration and the proxy's own headers *)

(** The module-level settings read from the environment. *)
Record ProxyConfig := {
  LITELLM_BASE_URL : string;
  DS_APP_ID : string;
  DS_KEY : string;
  LITELLM_API_KEY : string
}.

Definition load_config (env : gmap string string) : ProxyConfig :=
  {| LITELLM_BASE_URL := getenv env "LITELLM_BASE_URL" "https://llm.api.domain.com/v1";
     DS_APP_ID := getenv env "DS_APP_ID" EmptyString;
     DS_KEY := getenv env "DS_KEY" EmptyString;
     LITELLM_API_KEY := getenv env "LITELLM_API_KEY" EmptyString |}.

(** [CUSTOM_HEADERS], built once from the two credentials. *)
Definition CUSTOM_HEADERS (cfg : ProxyConfig) : dict :=
  let d0 : dict := [] in
  let d1 :=
    if truthy (LITELLM_API_KEY cfg) then
      if negb (startswith (lower (LITELLM_API_KEY cfg)) "bearer ") then
        dict_set d0 "X-LiteLLM-Key" ("Bearer " +:+ LITELLM_API_KEY cfg)
      else
        dict_set d0 "X-LiteLLM-Key" (LITELLM_API_KEY cfg)
    else d0 in
  if truthy (DS_KEY cfg) then dict_set d1 "Authorization" (DS_KEY cfg) else d1.

(** ** Request rewriting *)

(** [excluded_header_keys] *)
Definition excluded_header_keys : gset string :=
  {[ "host"; "content-length"; "connection"; "keep-alive";
     "proxy-authenticate"; "proxy-authorization"; "te"; "trailers";
     "transfer-encoding"; "upgrade"; "authorization"; "x-litellm-key" ]}.

(** The test of the copy loop: [key.lower() not in excluded_header_keys]. *)
Definition forwarded_key (key : string) : bool :=
  bool_decide (lower key ∉ excluded_header_keys).

(** [params = dict(request.query_params); params["app_id"] = DS_APP_ID] *)
Definition outbound_params (cfg : ProxyConfig) (query_params : items) : dict :=
  let params := dict_from query_params in
  dict_set params "app_id" (DS_APP_ID cfg).

(** The copy loop over [request.headers.items()], from an empty dict. *)
Definition copy_headers (incoming : items) : dict :=
  fold_left
    (fun forward_headers kv =>
       if forwarded_key kv.1 then dict_set forward_headers kv.1 kv.2
       else forward_headers)
    incoming [].

(** [forward_headers] after [forward_headers.update(CUSTOM_HEADERS)]. *)
Definition outbound_headers (cfg : ProxyConfig) (incoming : items) : dict :=
  dict_update (copy_headers incoming) (CUSTOM_HEADERS cfg).

(** ** Logging, the outbound call and the handlers *)

Inductive level := DEBUG | INFO | WARNING | ERROR | CRITICAL.

(** An exception raised while the framework's [Response] is built:
    [UnicodeEncodeError(encoding, object, ...)], raised by
    [object.encode(encoding)]. *)
Inductive raised :=
  | UnicodeEncodeError (encoding : string) (object : ustr).

(** A value interpolated into a log line. *)
Inductive logged :=
  | LStr (s : string)
  | LInt (z : Z)
  | LItems (l : items)                  (* a header or query-parameter object *)
  | LDict (d : dict)
  | LBytes (b : list Byte.byte)
  | LDecoded (b : list Byte.byte)       (* [b.decode(errors='ignore')] *)
  | LRepr (r : string)                  (* [{x!r}] of an exception or a URL *)
  | LHeaders (l : list (string * ustr)) (* the header object of a reply *)
  | LRaised (e : raised).               (* [{e!r}] of a [raised] exception *)

(** One call of a [logger] method: the f-string with its holes written [{}]
    and the values that fill them. *)
Record log_record := {
  lr_level : level;
  lr_format : string;
  lr_args : list logged
}.

(** The request object handed to the handler. *)
Record Request := {
  method : string;
  url : string;
  query_params : items;
  headers : items;
  body : list Byte.byte
}.

(** The arguments of [client.request(...)]. *)
Record client_request := {
  cr_method : string;
  cr_url : string;
  cr_params : dict;
  cr_headers : dict;
  cr_content : list Byte.byte;
  cr_timeout : Z
}.

(** A reply of the upstream, with what the HTTP client makes of it.
    [reply_headers] are the header lines in the order received, decoded:
    a name is a token (the client's parser takes nothing else) in the
    letter case the upstream chose and may come more than once; a value may
    hold any code point. [wire_content] is the body as the upstream sent
    it, [content] is [response.content], the body after the client has
    undone the [Content-Encoding]; the two differ for a compressed reply. *)
Record upstream_reply := {
  status_code : Z;
  reply_headers : list (string * ustr);
  wire_content : list Byte.byte;
  content : list Byte.byte
}.

(** An exception as the handler uses it: [repr_exc] is [{exc!r}], and for an
    [httpx.RequestError] [repr_url] is [{exc.request.url!r}]. *)
Record exn := {
  repr_exc : string;
  repr_url : string
}.

(** How [client.request(...)] in the [try] block ends. *)
Inductive outcome :=
  | Replied (r : upstream_reply)
  | RaisedRequestError (exc : exn)      (* [httpx.RequestError] *)
  | RaisedException (e : exn).          (* any other [Exception] *)

(** The body given to a [Response]: bytes, a [str], a sentence followed by
    the [repr] of a [raised] exception, or (for a path operation that
    returns a dict) the dict the framework renders as JSON. *)
Inductive payload :=
  | Bytes (b : list Byte.byte)
  | Text (s : string)
  | Json (d : dict)
  | TextRaised (sentence : string) (e : raised).

(** A [Response] as built from its arguments. [resp_headers] is [None]
    without a [headers=] argument; with one, it holds the entries as the
    constructor encodes them, each name lower-cased, name and value in
    latin-1. *)
Record Response := {
  resp_content : payload;
  resp_status : Z;
  resp_headers : option dict
}.

(** What a handler can change: the log and the calls made upstream. *)
Record world := {
  log : list log_record;
  sent : list client_request
}.

(** A handler's computation: it reads and extends the [world] and gives a
    result. *)
Definition Eff (A : Type) : Type := world -> A * world.

Definition ret {A} (a : A) : Eff A := fun w => (a, w).

Definition bind {A B} (m : Eff A) (k : A -> Eff B) : Eff B :=
  fun w => let (a, w') := m w in k a w'.

Notation "'let*' x := m 'in' k" := (bind m (fun x => k))
  (at level 10, x name, m at level 100, k at level 200, only parsing).
Notation "m >> k" := (bind m (fun _ => k))
  (at level 100, k at level 200, right associativity, only parsing).

(** [logger.debug], [logger.info], [logger.error]: one more record in the
    log. *)
Definition logger (l : level) (fmt : string) (args : list logged) : Eff unit :=
  fun w =>
    (tt, {| log := log w ++ [{| lr_level := l; lr_format := fmt;
                                lr_args := args |}];
            sent := sent w |}).

(** [await client.request(...)]: the call is made once and ends as the
    upstream and the network decide. *)
Definition client_call (upstream : client_request -> outcome)
    (rq : client_request) : Eff outcome :=
  fun w => (upstream rq, {| log := log w; sent := sent w ++ [rq] |}).

(** [read_root] *)
Definition read_root : Eff dict :=
  logger INFO "Root endpoint / was hit" [] >>
  ret [("message",
        "Proxy service is running. Use POST /v1 to send requests to LiteLLM.")].

(** The request the handler builds for the upstream. *)
Definition outbound_request (cfg : ProxyConfig) (request : Request)
    (full_path : string) : client_request :=
  {| cr_method := method request;
     cr_url := LITELLM_BASE_URL cfg +:+ full_path;
     cr_params := outbound_params cfg (query_params request);
     cr_headers := outbound_headers cfg (headers request);
     cr_content := body request;
     cr_timeout := 30 |}.

(** One header line added to the dict that [dict(response.headers)] builds:
    the value of a name already there is extended with a comma, a space
    and the new value; a new name goes last. *)
Fixpoint join_header (d : list (string * ustr)) (k : string) (v : ustr) :
    list (string * ustr) :=
  match d with
  | [] => [(k, v)]
  | (k', v') :: rest =>
      if String.eqb k' k then (k', v' ++ [44%N; 32%N] ++ v) :: rest
      else (k', v') :: join_header rest k v
  end.

(** [dict(response.headers)] on the client's header object: one entry per
    lower-cased name, in the order of first occurrence, the values of a
    repeated name joined with a comma and a space. *)
Definition joined_headers (lines : list (string * ustr)) : list (string * ustr) :=
  fold_left (fun d kv => join_header d (lower_ascii kv.1) kv.2) lines [].

(** The header encoding of the [Response] constructor,
    [[(k.lower().encode("latin-1"), v.encode("latin-1")) for k, v in
    headers.items()]]: the first value that latin-1 cannot hold raises. *)
Fixpoint encode_headers (hs : list (string * ustr)) : dict + raised :=
  match hs with
  | [] => inl []
  | (k, v) :: rest =>
      match latin1 v with
      | None => inr (UnicodeEncodeError "latin-1" v)
      | Some b =>
          match encode_headers rest with
          | inl d => inl ((lower k, b) :: d)
          | inr e => inr e
          end
      end
  end.

(** [Response(content=..., status_code=..., headers=...)] with [bytes] for
    content. *)
Definition relay_response (content : list Byte.byte) (status : Z)
    (hs : list (string * ustr)) : Response + raised :=
  match encode_headers hs with
  | inl d => inl {| resp_content := Bytes content; resp_status := status;
                    resp_headers := Some d |}
  | inr e => inr e
  end.

(** [generic_proxy_handler] *)
Definition generic_proxy_handler (cfg : ProxyConfig)
    (upstream : client_request -> outcome)
    (request : Request) (full_path : string) : Eff Response :=
  logger INFO "Received request: {} {}" [LStr (method request); LStr (url request)] >>
  logger DEBUG "Incoming headers: {}" [LItems (headers request)] >>
  logger DEBUG "Incoming query params: {}" [LItems (query_params request)] >>
  let body := body request in
  logger DEBUG "Incoming body: {}" [LDecoded body] >>
  let incoming_headers := headers request in
  let target_url := LITELLM_BASE_URL cfg +:+ full_path in
  let params := outbound_params cfg (query_params request) in
  logger INFO "Target URL: {}" [LStr target_url] >>
  logger DEBUG "Query params to be sent: {}" [LDict params] >>
  let forward_headers := outbound_headers cfg incoming_headers in
  logger DEBUG "Headers to be sent: {}" [LDict forward_headers] >>
  logger INFO "Forwarding {} request to {} with params {}"
    [LStr (method request); LStr target_url; LDict params] >>
  let* result := client_call upstream
              {| cr_method := method request;
                 cr_url := target_url;
                 cr_params := params;
                 cr_headers := forward_headers;
                 cr_content := body;
                 cr_timeout := 30 |} in
  match result with
  | Replied response =>
      logger INFO "Received response from target: {} {} - Status {}"
        [LStr (method request); LStr target_url; LInt (status_code response)] >>
      logger DEBUG "Response headers from target: {}"
        [LHeaders (reply_headers response)] >>
      logger DEBUG "Response content from target: {}" [LBytes (content response)] >>
      match relay_response (content response) (status_code response)
              (joined_headers (reply_headers response)) with
      | inl relayed => ret relayed
      | inr e =>
          (* [except Exception as e], the constructor having raised *)
          logger ERROR "An unexpected error occurred: {}" [LRaised e] >>
          ret {| resp_content := TextRaised "An unexpected error occurred: " e;
                 resp_status := 500;
                 resp_headers := None |}
      end
  | RaisedRequestError exc =>
      logger ERROR "An error occurred while requesting {}: {}"
        [LRepr (repr_url exc); LRepr (repr_exc exc)] >>
      ret {| resp_content := Text ("Error proxying request: " +:+ repr_exc exc);
             resp_status := 500;
             resp_headers := None |}
  | RaisedException e =>
      logger ERROR "An unexpected error occurred: {}" [LRepr (repr_exc e)] >>
      ret {| resp_content := Text ("An unexpected error occurred: " +:+ repr_exc e);
             resp_status := 500;
             resp_headers := None |}
  end.

(** The framework's answer for a path operation that returns a dict and
    declares no status: status 200 with the dict as JSON body. *)
Definition json_route (handler : Eff dict) : Eff Response :=
  let* d := handler in
  ret {| resp_content := Json d; resp_status := 200; resp_headers := None |}.

(** [methods=[...]] of the proxy route *)
Definition proxied_methods : list string :=
  ["GET"; "POST"; "PUT"; "DELETE"; "PATCH"; "OPTIONS"; "HEAD"].

(** The line feed, which [.] does not match and before which, at the very
    end, [$] matches. *)
Definition LF : ascii := ascii_of_N 10.

(** The path [/] followed by a line feed. *)
Definition root_with_LF : string := String "/" (String LF EmptyString).

(** The route [/] is the regular expression that takes [/] between the
    start and the end. *)
Definition matches_root (path : string) : bool :=
  String.eqb path "/" || String.eqb path root_with_LF.

(** The match of "any characters, then the end" on all of [s], the
    characters being the group: the group is [s] when [s] has no line feed,
    [s] without its last character when that is the only line feed, and
    there is no match otherwise. *)
Fixpoint match_to_end (s : string) : option string :=
  match s with
  | EmptyString => Some EmptyString
  | String c rest =>
      if Ascii.eqb c LF then
        if String.eqb rest EmptyString then Some EmptyString else None
      else String c <$> match_to_end rest
  end.

(** The route [/v1{full_path:path}] is the regular expression that takes
    [/v1] at the start, then any characters as the group [full_path], then
    the end; the result is the group. *)
Definition match_v1 (path : string) : option string :=
  if String.prefix "/v1" path
  then match_to_end (String.substring 3 (String.length path - 3) path)
  else None.

(** The two routes: [@app.get("/")] and
    [@app.api_route("/v1{full_path:path}", methods=[...])]. [None] stands
    for a request neither route takes. *)
Definition app (cfg : ProxyConfig) (upstream : client_request -> outcome)
    (path : string) (request : Request) : Eff (option Response) :=
  if matches_root path && String.eqb (method request) "GET" then
    let* r := json_route read_root in ret (Some r)
  else
    match match_v1 path with
    | Some full_path =>
        if bool_decide (method request ∈ proxied_methods) then
          let* r := generic_proxy_handler cfg upstream request full_path in
          ret (Some r)
        else ret None
    | None => ret None
    end.

(** ** Views and vocabulary of the statements *)

(** The map a dictionary stands for, its order forgotten. *)
Definition to_map (d : dict) : gmap string string := list_to_map d.

(** The inbound entries the copy loop keeps. *)
Definition kept (incoming : items) : items :=
  filter (λ kv, lower kv.1 ∉ excluded_header_keys) incoming.

(** "Starts with [p], letter case ignored": a prefix of [s] of the length of
    [p] lower-cases to the same string as [p]. *)
Definition starts_with_nocase (p s : string) : Prop :=
  ∃ p' rest, s = p' +:+ rest ∧ lower p' = lower p.

(** The outbound headers as the specification words them, on maps: the
    inbound mapping without the entries whose lower-cased key is excluded,
    overlaid with the proxy's own headers, which win. *)
Definition overlaid_headers (cfg : ProxyConfig) (H : gmap string string) :
    gmap string string :=
  to_map (CUSTOM_HEADERS cfg)
  ∪ filter (λ kv, lower kv.1 ∉ excluded_header_keys) H.

(** A header name that carries a credential: [Authorization] or
    [X-LiteLLM-Key] in any letter case. *)
Definition credential_key (key : string) : Prop :=
  lower key ∈ ({[ "authorization"; "x-litellm-key" ]} : gset string).

(** The inbound headers with the credential headers left out. *)
Definition without_credentials (H : items) : items :=
  filter (λ kv, ¬ credential_key kv.1) H.

(** ** Sample configurations, requests and upstreams *)

(** The configuration of an empty environment but for the named setting. *)
Definition cfg_app_only : ProxyConfig :=
  load_config {[ "DS_APP_ID" := "abc123" ]}.

Definition cfg_ds_only : ProxyConfig :=
  load_config {[ "DS_KEY" := "ds-secret" ]}.

Definition cfg_ds_bearer : ProxyConfig :=
  load_config {[ "DS_KEY" := "Bearer ds-secret" ]}.

Definition cfg_key_plain : ProxyConfig :=
  load_config {[ "LITELLM_API_KEY" := "sk-123" ]}.

Definition cfg_key_bearer : ProxyConfig :=
  load_config {[ "LITELLM_API_KEY" := "Bearer sk-123" ]}.

(** Two requests that differ in the credential headers only. *)
Definition request_with_stolen_key : Request :=
  {| method := "POST"; url := "http://proxy.local/v1/chat/completions";
     query_params := [];
     headers := [("accept", "*/*"); ("AUTHORIZATION", "Bearer stolen");
                 ("x-litellm-key", "k1")];
     body := [] |}.

Definition request_with_other_key : Request :=
  {| method := "POST"; url := "http://proxy.local/v1/chat/completions";
     query_params := [];
     headers := [("X-LiteLLM-Key", "k2"); ("accept", "*/*")];
     body := [] |}.

(** All three settings given. *)
Definition cfg_both : ProxyConfig :=
  {| LITELLM_BASE_URL := "https://llm.api.domain.com/v1"; DS_APP_ID := "abc123";
     DS_KEY := "ds-secret"; LITELLM_API_KEY := "sk-123" |}.

Definition unreachable_upstream (rq : client_request) : outcome :=
  RaisedRequestError
    {| repr_exc := "ConnectError('All connection attempts failed')";
       repr_url := "URL('" +:+ cr_url rq +:+ "')" |}.

(** An upstream that answers every call with the same JSON reply. *)
Definition sample_reply : upstream_reply :=
  {| status_code := 201;
     reply_headers := [("Content-Type", code_points "application/json");
                       ("X-Request-Id", code_points "42")];
     wire_content := [Byte.x7b; Byte.x7d];
     content := [Byte.x7b; Byte.x7d] |}.

(** A reply with a gzip body and two cookies: the 22 bytes are the gzip
    form of the two bytes of [content]. *)
Definition compressed_reply : upstream_reply :=
  {| status_code := 200;
     reply_headers := [("Content-Encoding", code_points "gzip");
                       ("Content-Length", code_points "22");
                       ("Set-Cookie", code_points "a=1");
                       ("Set-Cookie", code_points "b=2")];
     wire_content :=
       [Byte.x1f; Byte.x8b; Byte.x08; Byte.x00; Byte.x00; Byte.x00; Byte.x00;
        Byte.x00; Byte.x02; Byte.x03; Byte.xab; Byte.xae; Byte.x05; Byte.x00;
        Byte.x43; Byte.xbf; Byte.xa6; Byte.xa3; Byte.x02; Byte.x00; Byte.x00;
        Byte.x00];
     content := [Byte.x7b; Byte.x7d] |}.

(** A reply with a header value that latin-1 cannot hold (the euro sign). *)
Definition euro_reply : upstream_reply :=
  {| status_code := 200;
     reply_headers := [("X-Price", [8364%N])];
     wire_content := [];
     content := [] |}.

Definition answering_upstream (rq : client_request) : outcome :=
  Replied sample_reply.

(** ** Logging configuration *)

(** [str.upper] on one character of the range 0..255, given as code points
    because the result can leave the range: the small ASCII and Latin-1
    letters move down by 32, the micro sign becomes the Greek capital mu,
    y with diaeresis becomes its capital at 0x178, and sharp s becomes two
    capital letters S. *)
Definition upper_char (c : ascii) : list N :=
  let n := N_of_ascii c in
  if ((97 <=? n) && (n <=? 122) || (224 <=? n) && (n <=? 254) && negb (n =? 247))%N
  then [(n - 32)%N]
  else if (n =? 181)%N then [924%N]
  else if (n =? 223)%N then [83%N; 83%N]
  else if (n =? 255)%N then [376%N]
  else [n].

(** [s.upper()], as code points. *)
Definition upper (s : string) : list N :=
  flat_map upper_char (list_ascii_of_string s).

(** The numeric value of a logging level. *)
Definition levelno (l : level) : Z :=
  match l with
  | DEBUG => 10
  | INFO => 20
  | WARNING => 30
  | ERROR => 40
  | CRITICAL => 50
  end.

(** [LOG_FILE] *)
Definition LOG_FILE (env : gmap string string) : string :=
  getenv env "LOG_FILE" "proxy_litellm.log".

(** [LOG_LEVEL_STR = os.getenv("LOG_LEVEL", "INFO").upper()], for a value
    within the code points 0..255, as all strings of the environment are
    here. *)
Definition LOG_LEVEL_STR (env : gmap string string) : list N :=
  upper (getenv env "LOG_LEVEL" "INFO").

(** [LOG_LEVEL_MAP] *)
Definition LOG_LEVEL_MAP : list (string * level) :=
  [("DEBUG", DEBUG); ("INFO", INFO); ("WARNING", WARNING); ("ERROR", ERROR);
   ("CRITICAL", CRITICAL)].

(** [LOG_LEVEL = LOG_LEVEL_MAP.get(LOG_LEVEL_STR, logging.INFO)] *)
Definition LOG_LEVEL (env : gmap string string) : level :=
  match List.find (λ kv, bool_decide (code_points kv.1 = LOG_LEVEL_STR env))
          LOG_LEVEL_MAP with
  | Some kv => kv.2
  | None => INFO
  end.

(** What the handlers set up by [logging.basicConfig(level=LOG_LEVEL, ...)]
    write, to the file and to the console alike: the records whose level is
    not below the threshold. *)
Definition emitted (threshold : level) (records : list log_record) :
    list log_record :=
  filter (λ r, (levelno threshold ≤ levelno (lr_level r))%Z) records.

(** The name of a level. *)
Definition level_name (l : level) : string :=
  match l with
  | DEBUG => "DEBUG"
  | INFO => "INFO"
  | WARNING => "WARNING"
  | ERROR => "ERROR"
  | CRITICAL => "CRITICAL"
  end.

(** A string made of capital ASCII letters only. *)
Definition capitals (name : string) : Prop :=
  Forall (λ a, (65 ≤ N_of_ascii a ≤ 90)%N) (list_ascii_of_string name).

(** An environment that asks for debug logging, in small letters. *)
Definition env_debug : gmap string string :=
  {[ "LOG_LEVEL" := "debug"; "DS_KEY" := "ds-secret" ]}.

(** ** Sample runs *)

Example lower_mixed : lower "X-LiteLLM-Key" = "x-litellm-key".
Proof. reflexivity. Qed.

(** Latin-1 capitals are lowered, the multiplication sign is not. *)
Example lower_latin1 :
  lower_char (ascii_of_N 192) = ascii_of_N 224
  ∧ lower_char (ascii_of_N 222) = ascii_of_N 254
  ∧ lower_char (ascii_of_N 215) = ascii_of_N 215.
Proof. repeat split. Qed.

Example load_config_defaults :
  load_config ∅
  = {| LITELLM_BASE_URL := "https://llm.api.domain.com/v1";
       DS_APP_ID := EmptyString; DS_KEY := EmptyString;
       LITELLM_API_KEY := EmptyString |}.
Proof. reflexivity. Qed.

(** A query string that repeats a key: the last value stays, at the place
    of the first. *)
Example outbound_params_repeated_key :
  outbound_params cfg_app_only [("a", "1"); ("app_id", "mine"); ("a", "2")]
  = [("a", "2"); ("app_id", "abc123")].
Proof. vm_compute. reflexivity. Qed.

Example outbound_headers_sample :
  outbound_headers cfg_both
    [("HOST", "proxy"); ("accept", "*/*"); ("Authorization", "client")]
  = [("accept", "*/*"); ("X-LiteLLM-Key", "Bearer sk-123");
     ("Authorization", "ds-secret")].
Proof. vm_compute. reflexivity. Qed.

(** ** Facts about dictionaries *)

Section dict_facts.
Implicit Types (d o : dict) (m : items) (k v : string).

Lemma eqb_decide k k' : String.eqb k k' = bool_decide (k = k').
Proof.
  destruct (String.eqb_spec k k') as [->|Hne].
  - by rewrite bool_decide_eq_true_2.
  - by rewrite bool_decide_eq_false_2.
Qed.

Lemma truthy_nonempty k : truthy k = true ↔ k ≠ EmptyString.
Proof. destruct k; simpl; split; congruence. Qed.

Lemma dict_get_to_map d k : dict_get d k = to_map d !! k.
Proof.
  induction d as [|[k' v'] d IH]; simpl; [done|].
  unfold to_map in *; cbn [list_to_map foldr uncurry Datatypes.uncurry].
  destruct (String.eqb_spec k' k) as [->|Hne].
  - by rewrite lookup_insert_eq.
  - by rewrite lookup_insert_ne.
Qed.

Lemma dict_get_None d k : dict_get d k = None ↔ k ∉ keys d.
Proof.
  unfold keys. rewrite dict_get_to_map. unfold to_map.
  by rewrite <- not_elem_of_list_to_map.
Qed.

Lemma dict_get_set_eq d k v : dict_get (dict_set d k v) k = Some v.
Proof.
  induction d as [|[k' v'] d IH]; simpl.
  - by rewrite String.eqb_refl.
  - destruct (String.eqb k' k) eqn:E; simpl; by rewrite E.
Qed.

Lemma dict_get_set_ne d k v k' :
  k ≠ k' → dict_get (dict_set d k v) k' = dict_get d k'.
Proof.
  intros Hne. induction d as [|[k0 v0] d IH]; simpl.
  - destruct (String.eqb_spec k k'); congruence.
  - destruct (String.eqb_spec k0 k) as [->|Hk]; simpl.
    + destruct (String.eqb_spec k k'); congruence.
    + by rewrite IH.
Qed.

Lemma to_map_set d k v : to_map (dict_set d k v) = <[k := v]> (to_map d).
Proof.
  apply map_eq; intros k'. rewrite <- dict_get_to_map.
  destruct (decide (k = k')) as [<-|Hne].
  - by rewrite dict_get_set_eq, lookup_insert_eq.
  - by rewrite dict_get_set_ne, lookup_insert_ne, dict_get_to_map.
Qed.

Lemma dict_set_absent d k v :
  k ∉ keys d → dict_set d k v = d ++ [(k, v)].
Proof.
  induction d as [|[k' v'] d IH]; simpl; [done|].
  intros Hk. apply not_elem_of_cons in Hk as [Hne Hk].
  destruct (String.eqb_spec k' k); [congruence|]. by rewrite IH.
Qed.

Lemma keys_set_present d k v :
  k ∈ keys d → keys (dict_set d k v) = keys d.
Proof.
  induction d as [|[k' v'] d IH]; simpl.
  - by intros ?%elem_of_nil.
  - intros Hk. destruct (String.eqb_spec k' k) as [->|Hne]; simpl; [done|].
    apply elem_of_cons in Hk as [->|Hk]; [done|].
    unfold keys in *. by rewrite IH.
Qed.

Lemma dict_set_entries d k v k' v' :
  (k', v') ∈ dict_set d k v → (k', v') ∈ d ∨ (k', v') = (k, v).
Proof.
  induction d as [|[k0 v0] d IH]; simpl.
  - intros ->%list_elem_of_singleton. by right.
  - destruct (String.eqb_spec k0 k) as [->|Hne].
    + intros [->|Hin]%elem_of_cons; [by right|]. left. by right.
    + intros [->|Hin]%elem_of_cons; [left; by left|].
      destruct (IH Hin) as [?|?]; [left; by right|by right].
Qed.

Lemma dict_update_entries d o k v :
  (k, v) ∈ dict_update d o → (k, v) ∈ d ∨ (k, v) ∈ o.
Proof.
  revert d. induction o as [|[k0 v0] o IH]; intros d; simpl; [by left|].
  intros Hin. destruct (IH _ Hin) as [Hd|Ho]; [|right; by right].
  destruct (dict_set_entries _ _ _ _ _ Hd) as [? | ->]; [by left|right; by left].
Qed.

Lemma dict_update_app d o o' :
  dict_update d (o ++ o') = dict_update (dict_update d o) o'.
Proof. unfold dict_update. by rewrite fold_left_app. Qed.

(** Filling a dictionary with entries under new, distinct keys appends
    them in order. *)
Lemma dict_update_fresh d m :
  NoDup (keys (d ++ m)) → dict_update d m = d ++ m.
Proof.
  revert d. induction m as [|[k v] m IH]; intros d Hnd; simpl.
  - by rewrite app_nil_r.
  - assert (k ∉ keys d) as Hk.
    { unfold keys in *. rewrite fmap_app in Hnd.
      apply NoDup_app in Hnd as (_ & Hdis & _).
      intros Hin. apply (Hdis _ Hin). simpl. by left. }
    rewrite (dict_set_absent d k v Hk).
    rewrite (IH (d ++ [(k, v)])); rewrite <- app_assoc; done.
Qed.

(** [dict(m)] of a mapping is a copy of it. *)
Lemma dict_from_mapping m : NoDup (keys m) → dict_from m = m.
Proof. intros Hnd. unfold dict_from. by rewrite dict_update_fresh. Qed.

Lemma to_map_update d o :
  NoDup (keys o) → to_map (dict_update d o) = to_map o ∪ to_map d.
Proof.
  revert d. induction o as [|[k v] o IH]; intros d Hnd; simpl.
  - unfold to_map at 2. simpl. by rewrite (left_id_L ∅ (∪)).
  - unfold keys in Hnd. simpl in Hnd. apply NoDup_cons in Hnd as [Hk Hnd].
    rewrite (IH _ Hnd), to_map_set.
    unfold to_map at 3. cbn [list_to_map foldr uncurry Datatypes.uncurry].
    fold (to_map o). rewrite <- insert_union_l.
    symmetry. apply insert_union_r. by apply not_elem_of_list_to_map.
Qed.

End dict_facts.

(** ** Facts about the header filter and the proxy's own headers *)

Section header_facts.
Implicit Types (d : dict) (H : items) (k v : string) (cfg : ProxyConfig).

Lemma forwarded_key_spec k :
  forwarded_key k = true ↔ lower k ∉ excluded_header_keys.
Proof. unfold forwarded_key. apply bool_decide_eq_true. Qed.

Lemma copy_loop_filter d H :
  fold_left
    (fun forward_headers kv =>
       if forwarded_key kv.1 then dict_set forward_headers kv.1 kv.2
       else forward_headers) H d
  = dict_update d (kept H).
Proof.
  revert d. induction H as [|[k v] H IH]; intros d; [done|].
  unfold kept in *. rewrite filter_cons. cbn [fold_left fst snd].
  destruct (forwarded_key k) eqn:E.
  - apply forwarded_key_spec in E. rewrite decide_True by done. apply IH.
  - rewrite decide_False; [apply IH|].
    intros Hk. apply forwarded_key_spec in Hk. congruence.
Qed.

Lemma copy_headers_kept H : copy_headers H = dict_from (kept H).
Proof. apply copy_loop_filter. Qed.

Lemma keys_kept H :
  keys (kept H) = filter (λ k, lower k ∉ excluded_header_keys) (keys H).
Proof.
  unfold kept, keys. induction H as [|[k v] H IH]; [done|].
  rewrite filter_cons, fmap_cons, filter_cons. cbn [fst].
  destruct (decide (lower k ∉ excluded_header_keys));
    [rewrite fmap_cons|]; by rewrite IH.
Qed.

Lemma kept_mapping H : NoDup (keys H) → NoDup (keys (kept H)).
Proof. intros Hnd. rewrite keys_kept. by apply NoDup_filter. Qed.

Lemma copy_headers_entries H k v :
  (k, v) ∈ copy_headers H → (k, v) ∈ H ∧ lower k ∉ excluded_header_keys.
Proof.
  rewrite copy_headers_kept. unfold dict_from.
  intros [Hin|Hin]%dict_update_entries; [by apply elem_of_nil in Hin|].
  unfold kept in Hin. apply list_elem_of_filter in Hin as [Hk Hin]. done.
Qed.

Lemma copy_headers_keys H k :
  k ∈ keys (copy_headers H) → lower k ∉ excluded_header_keys.
Proof.
  unfold keys. intros ([k' v] & -> & Hin)%list_elem_of_fmap.
  by apply copy_headers_entries in Hin as [_ ?].
Qed.

(** [CUSTOM_HEADERS] written as the two optional entries it is made of. *)
Lemma CUSTOM_HEADERS_entries cfg :
  CUSTOM_HEADERS cfg =
    (if truthy (LITELLM_API_KEY cfg) then
       [("X-LiteLLM-Key",
         if startswith (lower (LITELLM_API_KEY cfg)) "bearer "
         then LITELLM_API_KEY cfg else "Bearer " +:+ LITELLM_API_KEY cfg)]
     else [])
    ++ (if truthy (DS_KEY cfg) then [("Authorization", DS_KEY cfg)] else []).
Proof.
  unfold CUSTOM_HEADERS.
  destruct (truthy (LITELLM_API_KEY cfg)), (truthy (DS_KEY cfg)),
    (startswith (lower (LITELLM_API_KEY cfg)) "bearer "); reflexivity.
Qed.

Lemma CUSTOM_HEADERS_mapping cfg : NoDup (keys (CUSTOM_HEADERS cfg)).
Proof.
  rewrite CUSTOM_HEADERS_entries.
  destruct (truthy (LITELLM_API_KEY cfg)), (truthy (DS_KEY cfg));
    apply (bool_decide_unpack _); reflexivity.
Qed.

Lemma lower_app (a b : string) : lower (a +:+ b) = lower a +:+ lower b.
Proof. induction a as [|c a IH]; simpl; [done|]. by rewrite IH. Qed.

Lemma prefix_app (p s : string) : String.prefix p (p +:+ s) = true.
Proof.
  induction p as [|c p IH]; simpl; [by destruct s|].
  destruct (ascii_dec c c); [done|congruence].
Qed.

Lemma prefix_lower_split (p s : string) :
  String.prefix p (lower s) = true → ∃ p' rest, s = p' +:+ rest ∧ lower p' = p.
Proof.
  revert s. induction p as [|c p IH]; intros s Hp.
  - by exists EmptyString, s.
  - destruct s as [|a s]; simpl in Hp; [done|].
    destruct (ascii_dec c (lower_char a)) as [->|]; [|done].
    destruct (IH s Hp) as (p' & rest & -> & <-).
    by exists (String a p'), rest.
Qed.

(** The test of the script, [key.lower().startswith("bearer ")], says that
    the key starts with "bearer " in some letter case. *)
Lemma startswith_bearer (key : string) :
  startswith (lower key) "bearer " = true ↔ starts_with_nocase "bearer " key.
Proof.
  unfold startswith, starts_with_nocase. split.
  - intros (p' & rest & -> & Hp)%prefix_lower_split. by exists p', rest.
  - intros (p' & rest & -> & Hp). rewrite lower_app, Hp.
    change (lower "bearer ") with "bearer ". apply prefix_app.
Qed.

End header_facts.

(** ** The call the handler makes *)

Section handler_facts.
Variables (cfg : ProxyConfig) (upstream : client_request -> outcome).
Variables (request : Request) (full_path : string) (w : world).

(** Whatever the upstream answers, the handler calls it exactly once, with
    [outbound_request]. *)
Lemma handler_sends :
  sent (generic_proxy_handler cfg upstream request full_path w).2
  = sent w ++ [outbound_request cfg request full_path].
Proof.
  unfold generic_proxy_handler, outbound_request, bind, logger, client_call, ret.
  simpl. destruct (upstream _) as [reply|exc|e]; simpl; [|done|done].
  by destruct (relay_response _ _ _).
Qed.

End handler_facts.

(** ** Query parameters *)

(** C1. The outbound query parameters are the inbound mapping [Q] with
    [app_id] set to the configured [DS_APP_ID]: as maps, the outbound
    parameters are [Q] with that one key inserted or overwritten, so every
    other key keeps its value; in the dictionary, an absent [app_id] is
    added after the entries of [Q] and a present one is overwritten in
    place; the keys stay unique. *)
Theorem outbound_params_app_id (cfg : ProxyConfig) (Q : items) :
  NoDup (keys Q) →
  outbound_params cfg Q = dict_set Q "app_id" (DS_APP_ID cfg)
  ∧ to_map (outbound_params cfg Q) = <["app_id" := DS_APP_ID cfg]> (to_map Q)
  ∧ dict_get (outbound_params cfg Q) "app_id" = Some (DS_APP_ID cfg)
  ∧ (∀ k, k ≠ "app_id" → dict_get (outbound_params cfg Q) k = dict_get Q k)
  ∧ ("app_id" ∉ keys Q →
       outbound_params cfg Q = Q ++ [("app_id", DS_APP_ID cfg)])
  ∧ ("app_id" ∈ keys Q → keys (outbound_params cfg Q) = keys Q)
  ∧ NoDup (keys (outbound_params cfg Q)).
Proof.
  intros HQ. unfold outbound_params. rewrite (dict_from_mapping Q HQ).
  split_and!.
  - done.
  - apply to_map_set.
  - apply dict_get_set_eq.
  - intros k Hk. by apply dict_get_set_ne.
  - apply dict_set_absent.
  - apply keys_set_present.
  - destruct (decide ("app_id" ∈ keys Q)) as [Hin|Hout].
    + by rewrite keys_set_present.
    + rewrite dict_set_absent by done. unfold keys in *.
      rewrite fmap_app. apply NoDup_app. split_and!; [done| |apply NoDup_singleton].
      intros k Hk ->%list_elem_of_singleton. done.
Qed.

(** Scenario B of the specification: [?foo=bar] with [DS_APP_ID = abc123]. *)
Lemma outbound_params_app_id_witness :
  NoDup (keys [("foo", "bar")])
  ∧ outbound_params cfg_app_only [("foo", "bar")]
    = [("foo", "bar"); ("app_id", "abc123")].
Proof.
  assert (NoDup (keys [("foo", "bar")])) as Hnd by apply NoDup_singleton.
  split; [exact Hnd|].
  exact (proj1 (outbound_params_app_id cfg_app_only [("foo", "bar")] Hnd)).
Defined.

(** C10. [app_id] is set without any test: the outbound parameters of every
    request hold the key [app_id] with the value [DS_APP_ID], also for query
    parameters that repeat a key, and the call the handler makes carries
    them; when the environment does not define [DS_APP_ID] the value is the
    empty string, and the key is still there. *)
Theorem app_id_always_sent (cfg : ProxyConfig) (env : gmap string string)
    (upstream : client_request -> outcome) (request : Request)
    (full_path : string) (w : world) :
  dict_get (outbound_params cfg (query_params request)) "app_id"
    = Some (DS_APP_ID cfg)
  ∧ "app_id" ∈ keys (outbound_params cfg (query_params request))
  ∧ (cr_params <$>
       last (sent (generic_proxy_handler cfg upstream request full_path w).2))
    = Some (outbound_params cfg (query_params request))
  ∧ DS_APP_ID (load_config (delete "DS_APP_ID" env)) = EmptyString
  ∧ dict_get (outbound_params (load_config (delete "DS_APP_ID" env))
                (query_params request)) "app_id" = Some EmptyString.
Proof.
  assert (∀ c, dict_get (outbound_params c (query_params request)) "app_id"
               = Some (DS_APP_ID c)) as Hget.
  { intros c. apply dict_get_set_eq. }
  assert (DS_APP_ID (load_config (delete "DS_APP_ID" env)) = EmptyString) as Hdef.
  { unfold load_config, getenv; simpl. by rewrite lookup_delete_eq. }
  split_and!.
  - apply Hget.
  - apply dec_stable. intros Hout. apply dict_get_None in Hout.
    rewrite Hget in Hout. done.
  - rewrite handler_sends, last_snoc. done.
  - done.
  - by rewrite Hget, Hdef.
Qed.

(** ** Outbound headers *)

Lemma to_map_kept (H : items) :
  to_map (kept H) = filter (λ kv, lower kv.1 ∉ excluded_header_keys) (to_map H).
Proof.
  unfold kept, to_map. induction H as [|[k v] H IH]; simpl.
  - by rewrite map_filter_empty.
  - rewrite filter_cons. cbn [fst].
    destruct (decide (lower k ∉ excluded_header_keys)) as [Hk|Hk].
    + cbn [list_to_map foldr uncurry Datatypes.uncurry]. rewrite IH.
      by rewrite map_filter_insert_True.
    + rewrite IH. symmetry. apply map_filter_insert_not. by intros y.
Qed.

(** C2. For an inbound header mapping [H], the outbound headers are what is
    left of [H] once every entry whose lower-cased key is in
    [excluded_header_keys] is dropped, updated with every entry of
    [CUSTOM_HEADERS]; read as maps, they are the overlay of [CUSTOM_HEADERS]
    on the filtered [H], in which [CUSTOM_HEADERS] wins. *)
Theorem outbound_headers_filter_then_overlay (cfg : ProxyConfig) (H : items) :
  NoDup (keys H) →
  outbound_headers cfg H = dict_update (kept H) (CUSTOM_HEADERS cfg)
  ∧ to_map (outbound_headers cfg H) = overlaid_headers cfg (to_map H).
Proof.
  intros HH.
  assert (copy_headers H = kept H) as Hcopy.
  { rewrite copy_headers_kept. apply dict_from_mapping. by apply kept_mapping. }
  unfold outbound_headers, overlaid_headers. rewrite Hcopy. split; [done|].
  rewrite (to_map_update _ _ (CUSTOM_HEADERS_mapping cfg)).
  by rewrite to_map_kept.
Qed.

Lemma outbound_headers_filter_then_overlay_witness :
  NoDup (keys [("Host", "proxy.local"); ("accept", "*/*"); ("X-LiteLLM-Key", "mine")])
  ∧ outbound_headers cfg_both
      [("Host", "proxy.local"); ("accept", "*/*"); ("X-LiteLLM-Key", "mine")]
    = dict_update
        (kept [("Host", "proxy.local"); ("accept", "*/*"); ("X-LiteLLM-Key", "mine")])
        [("X-LiteLLM-Key", "Bearer sk-123"); ("Authorization", "ds-secret")].
Proof.
  assert (NoDup (keys [("Host", "proxy.local"); ("accept", "*/*");
                       ("X-LiteLLM-Key", "mine")])) as Hnd.
  { apply (bool_decide_unpack _). reflexivity. }
  split; [exact Hnd|].
  exact (proj1 (outbound_headers_filter_then_overlay cfg_both _ Hnd)).
Defined.

Section outbound_lookup.
Implicit Types (d o : dict) (H : items) (k v : string) (cfg : ProxyConfig).

Lemma dict_has_Some d k : dict_has d k = true ↔ is_Some (dict_get d k).
Proof.
  unfold dict_has. destruct (dict_get d k); split; try done.
Qed.

Lemma dict_get_update d o k :
  NoDup (keys o) →
  dict_get (dict_update d o) k
  = match dict_get o k with Some v => Some v | None => dict_get d k end.
Proof.
  intros Ho. rewrite !dict_get_to_map, (to_map_update _ _ Ho).
  destruct (to_map o !! k) as [v|] eqn:E.
  - by apply lookup_union_Some_l.
  - by apply lookup_union_r.
Qed.

(** Under a name the filter excludes, the outbound headers hold what
    [CUSTOM_HEADERS] holds and nothing else. *)
Lemma outbound_get_excluded cfg H k :
  lower k ∈ excluded_header_keys →
  dict_get (outbound_headers cfg H) k = dict_get (CUSTOM_HEADERS cfg) k.
Proof.
  intros Hk. unfold outbound_headers.
  rewrite (dict_get_update _ _ _ (CUSTOM_HEADERS_mapping cfg)).
  destruct (dict_get (CUSTOM_HEADERS cfg) k); [done|].
  apply dict_get_None. intros Hin%copy_headers_keys. done.
Qed.

Lemma CUSTOM_HEADERS_litellm cfg :
  dict_get (CUSTOM_HEADERS cfg) "X-LiteLLM-Key"
  = if truthy (LITELLM_API_KEY cfg) then
      Some (if startswith (lower (LITELLM_API_KEY cfg)) "bearer "
            then LITELLM_API_KEY cfg else "Bearer " +:+ LITELLM_API_KEY cfg)
    else None.
Proof.
  rewrite CUSTOM_HEADERS_entries.
  destruct (truthy (LITELLM_API_KEY cfg)), (truthy (DS_KEY cfg)); reflexivity.
Qed.

Lemma CUSTOM_HEADERS_authorization cfg :
  dict_get (CUSTOM_HEADERS cfg) "Authorization"
  = if truthy (DS_KEY cfg) then Some (DS_KEY cfg) else None.
Proof.
  rewrite CUSTOM_HEADERS_entries.
  destruct (truthy (LITELLM_API_KEY cfg)), (truthy (DS_KEY cfg)); reflexivity.
Qed.

Lemma litellm_excluded : lower "X-LiteLLM-Key" ∈ excluded_header_keys.
Proof. apply (bool_decide_unpack _). reflexivity. Qed.

Lemma authorization_excluded : lower "Authorization" ∈ excluded_header_keys.
Proof. apply (bool_decide_unpack _). reflexivity. Qed.

End outbound_lookup.

(** C3. [X-LiteLLM-Key] is among the proxy's own headers, and among the
    outbound headers of every request, exactly when [LITELLM_API_KEY] is
    not empty. Its value is the key itself when the key starts with
    "bearer " in some letter case, and "Bearer " followed by the key
    otherwise. *)
Theorem x_litellm_key_header (cfg : ProxyConfig) (H : items) :
  (dict_has (CUSTOM_HEADERS cfg) "X-LiteLLM-Key" = true
     ↔ LITELLM_API_KEY cfg ≠ EmptyString)
  ∧ (dict_has (outbound_headers cfg H) "X-LiteLLM-Key" = true
       ↔ LITELLM_API_KEY cfg ≠ EmptyString)
  ∧ (starts_with_nocase "bearer " (LITELLM_API_KEY cfg) →
       dict_get (CUSTOM_HEADERS cfg) "X-LiteLLM-Key" = Some (LITELLM_API_KEY cfg)
       ∧ dict_get (outbound_headers cfg H) "X-LiteLLM-Key"
           = Some (LITELLM_API_KEY cfg))
  ∧ (LITELLM_API_KEY cfg ≠ EmptyString →
     ¬ starts_with_nocase "bearer " (LITELLM_API_KEY cfg) →
       dict_get (CUSTOM_HEADERS cfg) "X-LiteLLM-Key"
         = Some ("Bearer " +:+ LITELLM_API_KEY cfg)
       ∧ dict_get (outbound_headers cfg H) "X-LiteLLM-Key"
           = Some ("Bearer " +:+ LITELLM_API_KEY cfg)).
Proof.
  rewrite !dict_has_Some, (outbound_get_excluded _ _ _ litellm_excluded),
    CUSTOM_HEADERS_litellm, <- truthy_nonempty.
  assert (starts_with_nocase "bearer " (LITELLM_API_KEY cfg) →
          truthy (LITELLM_API_KEY cfg) = true) as Hne.
  { intros (p' & rest & -> & Hp). by destruct p'. }
  assert ((is_Some (if truthy (LITELLM_API_KEY cfg) then
             Some (if startswith (lower (LITELLM_API_KEY cfg)) "bearer "
                   then LITELLM_API_KEY cfg else "Bearer " +:+ LITELLM_API_KEY cfg)
           else None)) ↔ truthy (LITELLM_API_KEY cfg) = true) as Hiff.
  { destruct (truthy (LITELLM_API_KEY cfg)); split; done. }
  split_and!; try done.
  - intros Hpre. rewrite (Hne Hpre).
    apply startswith_bearer in Hpre. by rewrite Hpre.
  - intros -> Hpre.
    destruct (startswith (lower (LITELLM_API_KEY cfg)) "bearer ") eqn:E; [|done].
    by apply startswith_bearer in E.
Qed.

(** Scenarios C and D of the specification: the keys [sk-123] and
    [Bearer sk-123] both give [Bearer sk-123]. *)
Lemma x_litellm_key_header_witness :
  ("sk-123" ≠ EmptyString ∧ ¬ starts_with_nocase "bearer " "sk-123"
   ∧ dict_get (CUSTOM_HEADERS cfg_key_plain) "X-LiteLLM-Key"
     = Some "Bearer sk-123")
  ∧ (starts_with_nocase "bearer " "Bearer sk-123"
     ∧ dict_get (CUSTOM_HEADERS cfg_key_bearer) "X-LiteLLM-Key"
       = Some "Bearer sk-123").
Proof.
  assert ("sk-123" ≠ EmptyString) as Hne by discriminate.
  assert (¬ starts_with_nocase "bearer " "sk-123") as Hno.
  { intros Hp%startswith_bearer. discriminate Hp. }
  assert (starts_with_nocase "bearer " "Bearer sk-123") as Hyes.
  { by exists "Bearer ", "sk-123". }
  split.
  - split_and!; [exact Hne|exact Hno|].
    exact (proj1 (proj2 (proj2 (proj2 (x_litellm_key_header cfg_key_plain [])))
                    Hne Hno)).
  - split; [exact Hyes|].
    exact (proj1 (proj1 (proj2 (proj2 (x_litellm_key_header cfg_key_bearer [])))
                    Hyes)).
Defined.

(** C4. [Authorization] is among the proxy's own headers, and among the
    outbound headers of every request, exactly when [DS_KEY] is not empty,
    and its value is then [DS_KEY] itself, with nothing put before it. *)
Theorem authorization_header (cfg : ProxyConfig) (H : items) :
  (dict_has (CUSTOM_HEADERS cfg) "Authorization" = true
     ↔ DS_KEY cfg ≠ EmptyString)
  ∧ (dict_has (outbound_headers cfg H) "Authorization" = true
       ↔ DS_KEY cfg ≠ EmptyString)
  ∧ (DS_KEY cfg ≠ EmptyString →
       dict_get (CUSTOM_HEADERS cfg) "Authorization" = Some (DS_KEY cfg)
       ∧ dict_get (outbound_headers cfg H) "Authorization" = Some (DS_KEY cfg)).
Proof.
  rewrite !dict_has_Some, (outbound_get_excluded _ _ _ authorization_excluded),
    CUSTOM_HEADERS_authorization, <- truthy_nonempty.
  destruct (truthy (DS_KEY cfg)); split_and!; done.
Qed.

Lemma authorization_header_witness :
  "Bearer ds-secret" ≠ EmptyString
  ∧ dict_get (outbound_headers cfg_ds_bearer
                [("authorization", "Bearer from-client")])
      "Authorization" = Some "Bearer ds-secret".
Proof.
  assert ("Bearer ds-secret" ≠ EmptyString) as Hne by discriminate.
  split; [exact Hne|].
  exact (proj2 (proj2 (proj2
    (authorization_header cfg_ds_bearer
       [("authorization", "Bearer from-client")])) Hne)).
Defined.

(** ** Excluded names among the outbound headers *)

(** C5, as stated, fails once a credential is configured: with [DS_KEY]
    set and no inbound header at all, the outbound headers hold
    [Authorization], whose lower-cased form is in [excluded_header_keys]. *)
Lemma excluded_name_among_outbound :
  ("Authorization" ∈ keys (outbound_headers cfg_ds_only []))
  ∧ (lower "Authorization" ∈ excluded_header_keys).
Proof. split; apply (bool_decide_unpack _); reflexivity. Qed.

(** C5, amended. No header of [H] whose lower-cased key is in
    [excluded_header_keys] is copied, whatever its letter case; an outbound
    header under such a name is an entry of [CUSTOM_HEADERS], the proxy's
    own [X-LiteLLM-Key] or [Authorization]. *)
Theorem excluded_names_only_from_proxy (cfg : ProxyConfig) (H : items)
    (k v : string) :
  lower k ∈ excluded_header_keys →
  (k ∉ keys (copy_headers H))
  ∧ ((k, v) ∈ outbound_headers cfg H →
       ((k, v) ∈ CUSTOM_HEADERS cfg)
       ∧ (k = "X-LiteLLM-Key" ∨ k = "Authorization")).
Proof.
  intros Hk. split.
  - intros Hin%copy_headers_keys. done.
  - unfold outbound_headers.
    intros [Hin|Hin]%dict_update_entries.
    + by apply copy_headers_entries in Hin as [_ ?].
    + split; [done|]. rewrite CUSTOM_HEADERS_entries in Hin.
      apply elem_of_app in Hin as [Hin|Hin].
      * destruct (truthy (LITELLM_API_KEY cfg)); [|by apply elem_of_nil in Hin].
        apply list_elem_of_singleton in Hin. left. congruence.
      * destruct (truthy (DS_KEY cfg)); [|by apply elem_of_nil in Hin].
        apply list_elem_of_singleton in Hin. right. congruence.
Qed.

Lemma excluded_names_only_from_proxy_witness :
  (lower "Authorization" ∈ excluded_header_keys)
  ∧ (("Authorization", "ds-secret")
       ∈ outbound_headers cfg_ds_only
           [("HOST", "proxy.local"); ("AuthoriZation", "from-client")])
  ∧ ("Authorization"
       ∉ keys (copy_headers
                 [("HOST", "proxy.local"); ("AuthoriZation", "from-client")]))
  ∧ (("Authorization", "ds-secret") ∈ CUSTOM_HEADERS cfg_ds_only).
Proof.
  assert (lower "Authorization" ∈ excluded_header_keys) as Hk
    by exact authorization_excluded.
  assert (("Authorization", "ds-secret")
            ∈ outbound_headers cfg_ds_only
                [("HOST", "proxy.local"); ("AuthoriZation", "from-client")]) as Hin.
  { apply (bool_decide_unpack _). reflexivity. }
  destruct (excluded_names_only_from_proxy cfg_ds_only
              [("HOST", "proxy.local"); ("AuthoriZation", "from-client")]
              "Authorization" "ds-secret" Hk) as [Hcopy Hout].
  split_and!; [exact Hk|exact Hin|exact Hcopy|exact (proj1 (Hout Hin))].
Defined.

(** ** Client credentials do not reach the upstream *)

Lemma credential_key_excluded (k : string) :
  credential_key k → lower k ∈ excluded_header_keys.
Proof.
  unfold credential_key. intros [Hk|Hk]%elem_of_union;
    apply elem_of_singleton in Hk; rewrite Hk;
    apply (bool_decide_unpack _); reflexivity.
Qed.

Lemma kept_without_credentials (H : items) :
  kept (without_credentials H) = kept H.
Proof.
  unfold kept, without_credentials. induction H as [|[k v] H IH]; [done|].
  rewrite !filter_cons. cbn [fst].
  destruct (decide (¬ credential_key k)) as [Hk|Hk].
  - rewrite filter_cons. cbn [fst]. by rewrite IH.
  - rewrite IH. apply dec_stable, credential_key_excluded in Hk.
    rewrite decide_False; [done|]. intros Hn. by apply Hn.
Qed.

(** C6. Two lists of inbound headers that are the same once the
    [Authorization] and [X-LiteLLM-Key] headers (in any letter case) are
    left out give the same outbound headers, and so the same headers in the
    call the handler makes: what a client sends under those names has no
    effect on the upstream call. *)
Theorem client_credentials_ignored (cfg : ProxyConfig)
    (upstream1 upstream2 : client_request -> outcome)
    (request1 request2 : Request) (full_path1 full_path2 : string)
    (w1 w2 : world) :
  without_credentials (headers request1) = without_credentials (headers request2) →
  outbound_headers cfg (headers request1) = outbound_headers cfg (headers request2)
  ∧ (cr_headers <$>
       last (sent (generic_proxy_handler cfg upstream1 request1 full_path1 w1).2))
    = (cr_headers <$>
       last (sent (generic_proxy_handler cfg upstream2 request2 full_path2 w2).2)).
Proof.
  intros Hsame.
  assert (outbound_headers cfg (headers request1)
          = outbound_headers cfg (headers request2)) as Hout.
  { unfold outbound_headers. rewrite !copy_headers_kept.
    rewrite <- (kept_without_credentials (headers request1)), Hsame.
    by rewrite kept_without_credentials. }
  split; [done|].
  rewrite !handler_sends, !last_snoc. simpl. by rewrite Hout.
Qed.

Lemma client_credentials_ignored_witness :
  without_credentials (headers request_with_stolen_key)
    = without_credentials (headers request_with_other_key)
  ∧ outbound_headers cfg_both (headers request_with_stolen_key)
    = outbound_headers cfg_both (headers request_with_other_key).
Proof.
  assert (without_credentials (headers request_with_stolen_key)
          = without_credentials (headers request_with_other_key)) as Hsame.
  { vm_compute. reflexivity. }
  split; [exact Hsame|].
  exact (proj1 (client_credentials_ignored cfg_both
    unreachable_upstream unreachable_upstream
    request_with_stolen_key request_with_other_key
    "/chat/completions" "/chat/completions"
    {| log := []; sent := [] |} {| log := []; sent := [] |} Hsame)).
Defined.

(** ** The response given back to the client *)

(** C7. The reply is not relayed unchanged. For a gzip reply with two
    [Set-Cookie] lines the handler answers, whatever the request and the
    configuration, with the decompressed body under the reply's own
    [Content-Encoding] and [Content-Length], which describe the compressed
    body, and with the two cookies joined into one header: the body is not
    the body the upstream sent, and the joined value is the value of no
    header line of the reply. *)
Theorem relay_alters_compressed_reply (cfg : ProxyConfig) (request : Request)
    (full_path : string) (w : world) :
  (generic_proxy_handler cfg (λ _, Replied compressed_reply) request full_path w).1
  = {| resp_content := Bytes [Byte.x7b; Byte.x7d];
       resp_status := 200;
       resp_headers := Some [("content-encoding", "gzip");
                             ("content-length", "22");
                             ("set-cookie", "a=1, b=2")] |}
  ∧ Bytes [Byte.x7b; Byte.x7d] ≠ Bytes (wire_content compressed_reply)
  ∧ length (wire_content compressed_reply) = 22
  ∧ Forall (λ line, latin1 line.2 ≠ Some "a=1, b=2") (reply_headers compressed_reply).
Proof.
  split_and!.
  - unfold generic_proxy_handler, bind, logger, client_call, ret. reflexivity.
  - discriminate.
  - reflexivity.
  - repeat constructor; discriminate.
Qed.



(** C9. [GET /] is answered by [read_root] with status 200 and the fixed
    JSON object, whatever the configuration, the upstream and the rest of
    the request are; the only change is one more line in the log, and no
    call is made upstream. *)
Theorem root_is_fixed (cfg : ProxyConfig) (upstream : client_request -> outcome)
    (u : string) (q h : items) (b : list Byte.byte) (w : world) :
  read_root w
    = ([("message",
         "Proxy service is running. Use POST /v1 to send requests to LiteLLM.")],
       {| log := log w ++ [{| lr_level := INFO;
                              lr_format := "Root endpoint / was hit";
                              lr_args := [] |}];
          sent := sent w |})
  ∧ app cfg upstream "/"
      {| method := "GET"; url := u; query_params := q; headers := h; body := b |} w
    = (Some {| resp_content := Json (read_root w).1;
               resp_status := 200;
               resp_headers := None |},
       (read_root w).2).
Proof.
  split.
  - unfold read_root, bind, logger, ret. reflexivity.
  - unfold app. cbn [method].
    change (matches_root "/" && String.eqb "GET" "GET") with true.
    unfold json_route, bind, ret. cbv iota. by destruct (read_root w).
Qed.

(** * Further properties of the script *)

(** ** More facts about dictionaries *)

Section more_dict_facts.
Implicit Types (d o : dict) (m : items) (k v : string).

Lemma keys_dict_get d k : k ∈ keys d ↔ is_Some (dict_get d k).
Proof.
  rewrite <- not_eq_None_Some, dict_get_None. split; [by intros ? ?|].
  apply dec_stable.
Qed.

Lemma dict_get_app d o k :
  dict_get (d ++ o) k
  = match dict_get d k with Some v => Some v | None => dict_get o k end.
Proof.
  induction d as [|[k' v'] d IH]; simpl; [done|].
  by destruct (String.eqb k' k).
Qed.

Lemma dict_set_keys_NoDup d k v : NoDup (keys d) → NoDup (keys (dict_set d k v)).
Proof.
  intros Hnd. destruct (decide (k ∈ keys d)) as [Hin|Hout].
  - by rewrite keys_set_present.
  - rewrite dict_set_absent by done. unfold keys in *.
    rewrite fmap_app. apply NoDup_app. split_and!; [done| |apply NoDup_singleton].
    intros k' Hk' ->%list_elem_of_singleton. done.
Qed.

Lemma dict_update_NoDup d o : NoDup (keys d) → NoDup (keys (dict_update d o)).
Proof.
  revert d. induction o as [|[k v] o IH]; intros d Hnd; simpl; [done|].
  apply IH. by apply dict_set_keys_NoDup.
Qed.

Lemma dict_set_set d k v1 v2 : dict_set (dict_set d k v1) k v2 = dict_set d k v2.
Proof.
  induction d as [|[k' v'] d IH]; simpl.
  - by rewrite String.eqb_refl.
  - destruct (String.eqb k' k) eqn:E; simpl; rewrite E; [done|]. by rewrite IH.
Qed.

(** After [d.update(o)] a key holds the last value [o] gives it, and what
    it held in [d] when [o] does not name it. *)
Lemma dict_get_update_last d o k :
  dict_get (dict_update d o) k
  = match dict_get (reverse o) k with
    | Some v => Some v
    | None => dict_get d k
    end.
Proof.
  revert d. induction o as [|[k1 v1] o IH]; intros d; simpl; [done|].
  rewrite IH, reverse_cons, dict_get_app.
  destruct (dict_get (reverse o) k); [done|]. simpl.
  destruct (String.eqb_spec k1 k) as [->|Hne].
  - apply dict_get_set_eq.
  - by apply dict_get_set_ne.
Qed.

Lemma keys_reverse m k : k ∈ keys (reverse m) ↔ k ∈ keys m.
Proof. unfold keys. by rewrite fmap_reverse, elem_of_reverse. Qed.

Lemma keys_dict_update d o k :
  k ∈ keys (dict_update d o) ↔ k ∈ keys d ∨ k ∈ keys o.
Proof.
  rewrite <- (keys_reverse o), !keys_dict_get, dict_get_update_last.
  destruct (dict_get (reverse o) k) as [v|].
  - split; [intros _; right; by exists v|intros _; by exists v].
  - split; [by left|]. by intros [Hd|[v Hv]].
Qed.

End more_dict_facts.

(** ** Shape of the outbound parameters and headers *)

Lemma CUSTOM_HEADERS_keys_excluded (cfg : ProxyConfig) (k : string) :
  k ∈ keys (CUSTOM_HEADERS cfg) → lower k ∈ excluded_header_keys.
Proof.
  rewrite CUSTOM_HEADERS_entries. unfold keys. rewrite fmap_app.
  intros [Hin|Hin]%elem_of_app.
  - destruct (truthy (LITELLM_API_KEY cfg)); [|by apply elem_of_nil in Hin].
    apply list_elem_of_singleton in Hin as ->. exact litellm_excluded.
  - destruct (truthy (DS_KEY cfg)); [|by apply elem_of_nil in Hin].
    apply list_elem_of_singleton in Hin as ->. exact authorization_excluded.
Qed.

Lemma copy_headers_NoDup (H : items) : NoDup (keys (copy_headers H)).
Proof.
  rewrite copy_headers_kept. unfold dict_from. apply dict_update_NoDup.
  apply NoDup_nil_2.
Qed.

(** The update with [CUSTOM_HEADERS] finds none of its names among the
    copied headers, so it adds its entries after them. *)
Lemma outbound_headers_append (cfg : ProxyConfig) (H : items) :
  outbound_headers cfg H = copy_headers H ++ CUSTOM_HEADERS cfg.
Proof.
  unfold outbound_headers. apply dict_update_fresh.
  unfold keys. rewrite fmap_app. apply NoDup_app. split_and!.
  - apply copy_headers_NoDup.
  - intros k Hcopy%copy_headers_keys Hcustom%CUSTOM_HEADERS_keys_excluded. done.
  - apply CUSTOM_HEADERS_mapping.
Qed.

(** X1. Whatever the request holds, repeated query keys and repeated header
    names included, no key occurs twice in the outbound parameters or in
    the outbound headers, and there is at most one parameter more than
    query entries and at most two headers more than inbound headers. *)
Theorem outbound_keys_unique (cfg : ProxyConfig) (Q H : items) :
  NoDup (keys (outbound_params cfg Q))
  ∧ NoDup (keys (outbound_headers cfg H))
  ∧ length (outbound_params cfg Q) ≤ S (length Q)
  ∧ length (outbound_headers cfg H) ≤ 2 + length H.
Proof.
  assert (∀ (o d : items), length (dict_update d o) ≤ length d + length o) as Hlen.
  { assert (∀ (d : items) k v, length (dict_set d k v) ≤ S (length d)) as Hset.
    { intros d k v. induction d as [|[k' v'] d IH]; simpl; [lia|].
      destruct (String.eqb k' k); simpl; lia. }
    induction o as [|[k v] o IH]; intros d; simpl; [lia|].
    specialize (IH (dict_set d k v)). specialize (Hset d k v). lia. }
  split_and!.
  - unfold outbound_params. apply dict_set_keys_NoDup.
    unfold dict_from. apply dict_update_NoDup, NoDup_nil_2.
  - unfold outbound_headers. apply dict_update_NoDup, copy_headers_NoDup.
  - unfold outbound_params, dict_from.
    pose proof (Hlen Q []) as HQ. simpl in HQ.
    destruct (decide ("app_id" ∈ keys (dict_update [] Q))) as [Hin|Hout].
    + pose proof (f_equal length (keys_set_present _ _ (DS_APP_ID cfg) Hin)) as E.
      unfold keys in E. rewrite !length_fmap in E. lia.
    + rewrite dict_set_absent by done. rewrite length_app. simpl. lia.
  - rewrite outbound_headers_append, length_app.
    assert (length (copy_headers H) ≤ length H) as Hc.
    { rewrite copy_headers_kept. unfold dict_from.
      pose proof (Hlen (kept H) []) as Hk. simpl in Hk.
      pose proof (length_filter (λ kv : string * string,
                    lower kv.1 ∉ excluded_header_keys) H) as Hf.
      unfold kept in *. lia. }
    assert (length (CUSTOM_HEADERS cfg) ≤ 2) as Hcu.
    { rewrite CUSTOM_HEADERS_entries, length_app.
      destruct (truthy (LITELLM_API_KEY cfg)), (truthy (DS_KEY cfg)); simpl; lia. }
    lia.
Qed.

(** X2. A query key other than [app_id] goes out with the last value the
    query string gives it, earlier values being dropped, and it goes out
    exactly when the query string holds it. *)
Theorem repeated_query_key_last_wins (cfg : ProxyConfig) (Q : items) (k : string) :
  k ≠ "app_id" →
  dict_get (outbound_params cfg Q) k = dict_get (reverse Q) k
  ∧ (k ∈ keys (outbound_params cfg Q) ↔ k ∈ keys Q).
Proof.
  intros Hk.
  assert (dict_get (outbound_params cfg Q) k = dict_get (reverse Q) k) as Hget.
  { unfold outbound_params, dict_from.
    rewrite dict_get_set_ne by done. rewrite dict_get_update_last.
    by destruct (dict_get (reverse Q) k). }
  split; [done|].
  by rewrite <- (keys_reverse Q), !keys_dict_get, Hget.
Qed.

Lemma repeated_query_key_last_wins_witness :
  "model" ≠ "app_id"
  ∧ dict_get (outbound_params cfg_app_only
                [("model", "a"); ("n", "1"); ("model", "b")]) "model"
    = Some "b".
Proof.
  assert ("model" ≠ "app_id") as Hne by discriminate.
  split; [exact Hne|].
  exact (proj1 (repeated_query_key_last_wins cfg_app_only
                  [("model", "a"); ("n", "1"); ("model", "b")] "model" Hne)).
Defined.

(** X3. An inbound header whose lower-cased name is not excluded goes out
    under the same spelling of its name with the last value the request
    gives that spelling; a name spelled in another letter case is another
    key. *)
Theorem repeated_header_last_wins (cfg : ProxyConfig) (H : items) (k : string) :
  lower k ∉ excluded_header_keys →
  dict_get (outbound_headers cfg H) k = dict_get (reverse H) k.
Proof.
  intros Hk. rewrite outbound_headers_append, dict_get_app.
  assert (dict_get (CUSTOM_HEADERS cfg) k = None) as ->.
  { apply dict_get_None. intros Hin%CUSTOM_HEADERS_keys_excluded. done. }
  rewrite copy_headers_kept. unfold dict_from. rewrite dict_get_update_last.
  assert (dict_get (reverse (kept H)) k = dict_get (reverse H) k) as ->.
  { unfold kept. induction H as [|[k' v'] H IH]; [done|].
    rewrite filter_cons. cbn [fst].
    destruct (decide (lower k' ∉ excluded_header_keys)) as [Hk'|Hk'].
    - rewrite !reverse_cons, !dict_get_app, IH. done.
    - rewrite reverse_cons, dict_get_app, IH.
      destruct (dict_get (reverse H) k); [done|]. simpl.
      destruct (String.eqb_spec k' k) as [->|]; [done|done]. }
  by destruct (dict_get (reverse H) k).
Qed.

Lemma repeated_header_last_wins_witness :
  (lower "x-forwarded-for" ∉ excluded_header_keys)
  ∧ dict_get (outbound_headers cfg_both
                [("x-forwarded-for", "10.0.0.1"); ("X-Forwarded-For", "other");
                 ("x-forwarded-for", "10.0.0.2")]) "x-forwarded-for"
    = Some "10.0.0.2".
Proof.
  assert (lower "x-forwarded-for" ∉ excluded_header_keys) as Hk.
  { apply (bool_decide_unpack _). reflexivity. }
  split; [exact Hk|].
  exact (repeated_header_last_wins cfg_both
           [("x-forwarded-for", "10.0.0.1"); ("X-Forwarded-For", "other");
            ("x-forwarded-for", "10.0.0.2")] "x-forwarded-for" Hk).
Defined.

Lemma filter_all {A} (P : A → Prop) `{!∀ x, Decision (P x)} (l : list A) :
  Forall P l → filter P l = l.
Proof.
  induction 1 as [|x l Hx Hl IH]; [done|].
  rewrite filter_cons, decide_True by done. by rewrite IH.
Qed.

Lemma filter_none {A} (P : A → Prop) `{!∀ x, Decision (P x)} (l : list A) :
  Forall (λ x, ¬ P x) l → filter P l = [].
Proof.
  induction 1 as [|x l Hx Hl IH]; [done|].
  by rewrite filter_cons, decide_False.
Qed.

(** X4. The outbound headers are the copied inbound headers, in the order
    of their first occurrence, followed by the proxy's own: [X-LiteLLM-Key]
    when a key is configured, then [Authorization] when [DS_KEY] is. The
    update never overwrites a copied header. *)
Theorem proxy_headers_come_last (cfg : ProxyConfig) (H : items) :
  outbound_headers cfg H
  = copy_headers H
    ++ (if truthy (LITELLM_API_KEY cfg) then
          [("X-LiteLLM-Key",
            if startswith (lower (LITELLM_API_KEY cfg)) "bearer "
            then LITELLM_API_KEY cfg else "Bearer " +:+ LITELLM_API_KEY cfg)]
        else [])
    ++ (if truthy (DS_KEY cfg) then [("Authorization", DS_KEY cfg)] else []).
Proof. by rewrite outbound_headers_append, CUSTOM_HEADERS_entries. Qed.

(** X5. The names among the outbound headers are the inbound names whose
    lower-cased form is not excluded together with the names of
    [CUSTOM_HEADERS]; and an outbound entry is an inbound entry, value
    unchanged, or an entry of [CUSTOM_HEADERS]. No forwardable header is
    lost and none is invented. *)
Theorem outbound_header_names (cfg : ProxyConfig) (H : items) (k v : string) :
  (k ∈ keys (outbound_headers cfg H)
     ↔ (k ∈ keys H ∧ lower k ∉ excluded_header_keys)
       ∨ k ∈ keys (CUSTOM_HEADERS cfg))
  ∧ ((k, v) ∈ outbound_headers cfg H →
       ((k, v) ∈ H ∧ lower k ∉ excluded_header_keys)
       ∨ (k, v) ∈ CUSTOM_HEADERS cfg).
Proof.
  split.
  - unfold outbound_headers. rewrite keys_dict_update, copy_headers_kept.
    unfold dict_from. rewrite keys_dict_update, keys_kept, list_elem_of_filter.
    unfold keys at 1. simpl. rewrite elem_of_nil. tauto.
  - unfold outbound_headers. intros [Hin|Hin]%dict_update_entries; [left|by right].
    by apply copy_headers_entries.
Qed.

Lemma outbound_header_names_witness :
  (("accept", "*/*")
     ∈ outbound_headers cfg_both (headers request_with_stolen_key))
  ∧ (("accept", "*/*") ∈ headers request_with_stolen_key
       ∧ lower "accept" ∉ excluded_header_keys
     ∨ ("accept", "*/*") ∈ CUSTOM_HEADERS cfg_both).
Proof.
  assert (("accept", "*/*")
            ∈ outbound_headers cfg_both (headers request_with_stolen_key)) as Hin.
  { apply (bool_decide_unpack _). reflexivity. }
  split; [exact Hin|].
  exact (proj2 (outbound_header_names cfg_both (headers request_with_stolen_key)
                  "accept" "*/*") Hin).
Defined.

(** X6. Headers that went through the proxy once go through a proxy again
    as if they had gone through the second one only: the first proxy's
    credentials are dropped and the second one's are set. With the same
    configuration the rewriting is idempotent. *)
Theorem outbound_headers_chained (cfg1 cfg2 : ProxyConfig) (H : items) :
  outbound_headers cfg2 (outbound_headers cfg1 H) = outbound_headers cfg2 H
  ∧ outbound_headers cfg1 (outbound_headers cfg1 H) = outbound_headers cfg1 H.
Proof.
  assert (∀ c1 c2, outbound_headers c2 (outbound_headers c1 H)
                   = outbound_headers c2 H) as Hchain.
  { intros c1 c2. rewrite !outbound_headers_append. f_equal.
    rewrite copy_headers_kept. unfold kept. rewrite filter_app.
    rewrite (filter_none _ (CUSTOM_HEADERS c1)), app_nil_r.
    - rewrite filter_all; [apply dict_from_mapping, copy_headers_NoDup|].
      apply Forall_forall. intros [k v] Hin. cbn [fst].
      by apply copy_headers_entries in Hin as [_ ?].
    - apply Forall_forall. intros [k v] Hin Hk. apply Hk.
      apply (CUSTOM_HEADERS_keys_excluded c1). unfold keys.
      apply list_elem_of_fmap. by exists (k, v). }
  split; apply Hchain.
Qed.

(** X7. The same for the query parameters: parameters that already went
    through a proxy come out of the next one with that one's [app_id], at
    the same place, and with the same configuration nothing changes. *)
Theorem outbound_params_chained (cfg1 cfg2 : ProxyConfig) (Q : items) :
  outbound_params cfg2 (outbound_params cfg1 Q) = outbound_params cfg2 Q
  ∧ outbound_params cfg1 (outbound_params cfg1 Q) = outbound_params cfg1 Q.
Proof.
  assert (∀ c1 c2, outbound_params c2 (outbound_params c1 Q)
                   = outbound_params c2 Q) as Hchain.
  { intros c1 c2. unfold outbound_params.
    rewrite (dict_from_mapping (dict_set _ _ _)).
    - apply dict_set_set.
    - apply dict_set_keys_NoDup. unfold dict_from.
      apply dict_update_NoDup, NoDup_nil_2. }
  split; apply Hchain.
Qed.

(** X8. With neither credential configured the proxy has no header of its
    own: the outbound headers are the copied inbound headers alone, and no
    outbound name lower-cases into [excluded_header_keys], so a client's
    [Authorization] is dropped and nothing stands in for it. *)
Theorem no_credentials_no_auth_headers (cfg : ProxyConfig) (H : items) (k : string) :
  DS_KEY cfg = EmptyString →
  LITELLM_API_KEY cfg = EmptyString →
  CUSTOM_HEADERS cfg = []
  ∧ outbound_headers cfg H = copy_headers H
  ∧ (k ∈ keys (outbound_headers cfg H) → lower k ∉ excluded_header_keys).
Proof.
  intros Hds Hkey.
  assert (CUSTOM_HEADERS cfg = []) as Hnone.
  { rewrite CUSTOM_HEADERS_entries, Hds, Hkey. reflexivity. }
  assert (outbound_headers cfg H = copy_headers H) as Hout.
  { by rewrite outbound_headers_append, Hnone, app_nil_r. }
  split_and!; [done|done|]. rewrite Hout. apply copy_headers_keys.
Qed.

Lemma no_credentials_no_auth_headers_witness :
  DS_KEY (load_config ∅) = EmptyString
  ∧ LITELLM_API_KEY (load_config ∅) = EmptyString
  ∧ outbound_headers (load_config ∅)
      [("authorization", "Bearer from-client"); ("accept", "*/*")]
    = copy_headers [("authorization", "Bearer from-client"); ("accept", "*/*")].
Proof.
  split_and!; [reflexivity|reflexivity|].
  exact (proj1 (proj2 (no_credentials_no_auth_headers (load_config ∅)
           [("authorization", "Bearer from-client"); ("accept", "*/*")]
           "accept" eq_refl eq_refl))).
Defined.

(** X9. Whenever [X-LiteLLM-Key] is set its value starts with "bearer " in
    some letter case and ends with the configured key, which is either the
    whole value or comes after "Bearer "; and configuring the proxy with
    that value as its key gives the same header again. *)
Theorem bearer_prefix_normalised (cfg cfg' : ProxyConfig) (v : string) :
  dict_get (CUSTOM_HEADERS cfg) "X-LiteLLM-Key" = Some v →
  starts_with_nocase "bearer " v
  ∧ (v = LITELLM_API_KEY cfg ∨ v = "Bearer " +:+ LITELLM_API_KEY cfg)
  ∧ (LITELLM_API_KEY cfg' = v →
       dict_get (CUSTOM_HEADERS cfg') "X-LiteLLM-Key" = Some v).
Proof.
  rewrite CUSTOM_HEADERS_litellm.
  destruct (truthy (LITELLM_API_KEY cfg)); [|done]. intros [= Hv].
  assert (starts_with_nocase "bearer " v) as Hpre.
  { destruct (startswith (lower (LITELLM_API_KEY cfg)) "bearer ") eqn:E.
    - subst v. by apply startswith_bearer.
    - subst v. by exists "Bearer ", (LITELLM_API_KEY cfg). }
  split_and!.
  - done.
  - destruct (startswith (lower (LITELLM_API_KEY cfg)) "bearer "); auto.
  - intros Hkey. rewrite CUSTOM_HEADERS_litellm, Hkey.
    assert (truthy v = true) as ->.
    { destruct Hpre as (p' & rest & -> & Hp). by destruct p'. }
    apply startswith_bearer in Hpre. by rewrite Hpre.
Qed.

Lemma bearer_prefix_normalised_witness :
  dict_get (CUSTOM_HEADERS cfg_key_plain) "X-LiteLLM-Key" = Some "Bearer sk-123"
  ∧ starts_with_nocase "bearer " "Bearer sk-123"
  ∧ dict_get (CUSTOM_HEADERS cfg_key_bearer) "X-LiteLLM-Key" = Some "Bearer sk-123".
Proof.
  assert (dict_get (CUSTOM_HEADERS cfg_key_plain) "X-LiteLLM-Key"
          = Some "Bearer sk-123") as Hget by reflexivity.
  destruct (bearer_prefix_normalised cfg_key_plain cfg_key_bearer
              "Bearer sk-123" Hget) as (Hpre & _ & Hagain).
  split_and!; [exact Hget|exact Hpre|exact (Hagain eq_refl)].
Defined.

(** ** The log of a request *)

(** The records [generic_proxy_handler] writes before the call. *)
Lemma handler_log (cfg : ProxyConfig) (upstream : client_request -> outcome)
    (request : Request) (full_path : string) (w : world) :
  ∃ before after,
    log (generic_proxy_handler cfg upstream request full_path w).2
      = log w ++ before ++ after
    ∧ before
      = [ {| lr_level := INFO; lr_format := "Received request: {} {}";
             lr_args := [LStr (method request); LStr (url request)] |};
          {| lr_level := DEBUG; lr_format := "Incoming headers: {}";
             lr_args := [LItems (headers request)] |};
          {| lr_level := DEBUG; lr_format := "Incoming query params: {}";
             lr_args := [LItems (query_params request)] |};
          {| lr_level := DEBUG; lr_format := "Incoming body: {}";
             lr_args := [LDecoded (body request)] |};
          {| lr_level := INFO; lr_format := "Target URL: {}";
             lr_args := [LStr (LITELLM_BASE_URL cfg +:+ full_path)] |};
          {| lr_level := DEBUG; lr_format := "Query params to be sent: {}";
             lr_args := [LDict (outbound_params cfg (query_params request))] |};
          {| lr_level := DEBUG; lr_format := "Headers to be sent: {}";
             lr_args := [LDict (outbound_headers cfg (headers request))] |};
          {| lr_level := INFO;
             lr_format := "Forwarding {} request to {} with params {}";
             lr_args := [LStr (method request);
                         LStr (LITELLM_BASE_URL cfg +:+ full_path);
                         LDict (outbound_params cfg (query_params request))] |} ]
    ∧ after
      = match upstream (outbound_request cfg request full_path) with
        | Replied response =>
            [ {| lr_level := INFO;
                 lr_format := "Received response from target: {} {} - Status {}";
                 lr_args := [LStr (method request);
                             LStr (LITELLM_BASE_URL cfg +:+ full_path);
                             LInt (status_code response)] |};
              {| lr_level := DEBUG; lr_format := "Response headers from target: {}";
                 lr_args := [LHeaders (reply_headers response)] |};
              {| lr_level := DEBUG; lr_format := "Response content from target: {}";
                 lr_args := [LBytes (content response)] |} ]
            ++ match relay_response (content response) (status_code response)
                       (joined_headers (reply_headers response)) with
               | inl _ => []
               | inr e =>
                   [ {| lr_level := ERROR;
                        lr_format := "An unexpected error occurred: {}";
                        lr_args := [LRaised e] |} ]
               end
        | RaisedRequestError exc =>
            [ {| lr_level := ERROR;
                 lr_format := "An error occurred while requesting {}: {}";
                 lr_args := [LRepr (repr_url exc); LRepr (repr_exc exc)] |} ]
        | RaisedException e =>
            [ {| lr_level := ERROR; lr_format := "An unexpected error occurred: {}";
                 lr_args := [LRepr (repr_exc e)] |} ]
        end.
Proof.
  eexists _, _. split_and!; [|reflexivity|reflexivity].
  unfold generic_proxy_handler, outbound_request, bind, logger, client_call, ret.
  simpl. destruct (upstream _) as [response|exc|e]; simpl;
    [destruct (relay_response _ _ _); simpl|..];
    rewrite <- ?app_assoc; reflexivity.
Qed.

(** X10. The handler only adds to the log, and it writes a record of level
    ERROR exactly when the [try] block raised: when the upstream call
    raised, or when it returned a reply from which the [Response] could not
    be built because a header value does not fit latin-1. In both cases
    the answer has status 500. *)
Theorem error_logged_iff_try_raised (cfg : ProxyConfig)
    (upstream : client_request -> outcome) (request : Request)
    (full_path : string) (w : world) :
  ∃ added,
    log (generic_proxy_handler cfg upstream request full_path w).2
      = log w ++ added
    ∧ ((∃ r, r ∈ added ∧ lr_level r = ERROR)
         ↔ ¬ ∃ reply relayed,
               upstream (outbound_request cfg request full_path) = Replied reply
               ∧ relay_response (content reply) (status_code reply)
                   (joined_headers (reply_headers reply)) = inl relayed)
    ∧ ((∃ r, r ∈ added ∧ lr_level r = ERROR) →
         resp_status (generic_proxy_handler cfg upstream request full_path w).1
           = 500%Z).
Proof.
  destruct (handler_log cfg upstream request full_path w)
    as (before & after & Hlog & Hbefore & Hafter).
  exists (before ++ after). split; [done|].
  assert (∀ r, r ∈ before → lr_level r ≠ ERROR) as Hb.
  { intros r Hin. rewrite Hbefore in Hin.
    repeat (apply elem_of_cons in Hin as [->|Hin]; [discriminate|]).
    by apply elem_of_nil in Hin. }
  unfold generic_proxy_handler, bind, logger, client_call, ret. simpl.
  unfold outbound_request in *.
  destruct (upstream _) as [response|exc|e] eqn:Hup; simpl.
  - destruct (relay_response (content response) (status_code response)
                (joined_headers (reply_headers response))) as [relayed|e] eqn:Hr;
      simpl.
    + assert (¬ ∃ r, r ∈ before ++ after ∧ lr_level r = ERROR) as Hnone.
      { intros (r & [Hin|Hin]%elem_of_app & Hl); [by apply (Hb r)|].
        rewrite Hafter, app_nil_r in Hin.
        repeat (apply elem_of_cons in Hin as [->|Hin]; [discriminate|]).
        by apply elem_of_nil in Hin. }
      split; [|by intros ?]. split; [by intros ?|].
      intros Hno. exfalso. apply Hno. by exists response, relayed.
    + split; [|done]. split.
      * intros _ (reply & relayed & [= <-] & Hok). congruence.
      * intros _.
        exists {| lr_level := ERROR;
                  lr_format := "An unexpected error occurred: {}";
                  lr_args := [LRaised e] |}.
        split; [|done]. rewrite Hafter.
        apply elem_of_app; right. apply elem_of_app; right.
        apply list_elem_of_here.
  - split; [|done]. split.
    + intros _ (reply & relayed & Hrep & _). discriminate.
    + intros _.
      exists {| lr_level := ERROR;
                lr_format := "An error occurred while requesting {}: {}";
                lr_args := [LRepr (repr_url exc); LRepr (repr_exc exc)] |}.
      split; [|done]. rewrite Hafter.
      apply elem_of_app; right. apply list_elem_of_here.
  - split; [|done]. split.
    + intros _ (reply & relayed & Hrep & _). discriminate.
    + intros _.
      exists {| lr_level := ERROR;
                lr_format := "An unexpected error occurred: {}";
                lr_args := [LRepr (repr_exc e)] |}.
      split; [|done]. rewrite Hafter.
      apply elem_of_app; right. apply list_elem_of_here.
Qed.

(** X11. With a threshold of INFO or above, what is written to the log
    for a request does not depend on the inbound headers or on the body:
    two requests with the same method, URL and query parameters, met by the
    same outcome of the upstream call, leave the same records. *)
Theorem log_above_debug_ignores_headers_and_body (cfg : ProxyConfig)
    (result : outcome) (request1 request2 : Request) (full_path : string)
    (w : world) (threshold : level) :
  threshold ≠ DEBUG →
  method request1 = method request2 →
  url request1 = url request2 →
  query_params request1 = query_params request2 →
  emitted threshold
    (log (generic_proxy_handler cfg (λ _, result) request1 full_path w).2)
  = emitted threshold
      (log (generic_proxy_handler cfg (λ _, result) request2 full_path w).2).
Proof.
  intros Hth Hm Hu Hq.
  destruct (handler_log cfg (λ _, result) request1 full_path w)
    as (b1 & a1 & -> & -> & ->).
  destruct (handler_log cfg (λ _, result) request2 full_path w)
    as (b2 & a2 & -> & -> & ->).
  unfold emitted. rewrite !filter_app, Hm, Hu, Hq. f_equal.
  destruct threshold; [done|..]; destruct result; reflexivity.
Qed.

Lemma log_above_debug_ignores_headers_and_body_witness :
  INFO ≠ DEBUG
  ∧ method request_with_stolen_key = method request_with_other_key
  ∧ emitted INFO
      (log (generic_proxy_handler cfg_both (λ _, Replied sample_reply)
              request_with_stolen_key "/chat/completions"
              {| log := []; sent := [] |}).2)
    = emitted INFO
        (log (generic_proxy_handler cfg_both (λ _, Replied sample_reply)
                request_with_other_key "/chat/completions"
                {| log := []; sent := [] |}).2).
Proof.
  assert (INFO ≠ DEBUG) as Hth by discriminate.
  split_and!; [exact Hth|reflexivity|].
  exact (log_above_debug_ignores_headers_and_body cfg_both (Replied sample_reply)
           request_with_stolen_key request_with_other_key "/chat/completions"
           {| log := []; sent := [] |} INFO Hth eq_refl eq_refl eq_refl).
Defined.

(** X12. With the threshold DEBUG the log of every request holds the
    inbound headers as received, client credentials included, and the
    outbound headers, and with them every entry of [CUSTOM_HEADERS]: the
    proxy's own credentials are written to the log. *)
Theorem debug_log_holds_credentials (cfg : ProxyConfig)
    (upstream : client_request -> outcome) (request : Request)
    (full_path : string) (w : world) (k v : string) :
  (k, v) ∈ CUSTOM_HEADERS cfg →
  (∃ r d, r ∈ emitted DEBUG
                (log (generic_proxy_handler cfg upstream request full_path w).2)
          ∧ lr_format r = "Headers to be sent: {}"
          ∧ lr_args r = [LDict d] ∧ (k, v) ∈ d)
  ∧ (∃ r, r ∈ emitted DEBUG
                (log (generic_proxy_handler cfg upstream request full_path w).2)
          ∧ lr_format r = "Incoming headers: {}"
          ∧ lr_args r = [LItems (headers request)]).
Proof.
  intros Hkv.
  destruct (handler_log cfg upstream request full_path w)
    as (before & after & -> & -> & _).
  assert (∀ r : log_record, (levelno DEBUG ≤ levelno (lr_level r))%Z) as Hall.
  { intros r. destruct (lr_level r); simpl; lia. }
  assert (∀ l, emitted DEBUG l = l) as Hem.
  { intros l. unfold emitted. apply filter_all, Forall_forall. by intros r _. }
  rewrite Hem. split.
  - eexists _, (outbound_headers cfg (headers request)). split_and!.
    + apply elem_of_app; right. apply elem_of_app; left.
      do 6 apply list_elem_of_further. apply list_elem_of_here.
    + done.
    + done.
    + rewrite outbound_headers_append. apply elem_of_app. by right.
  - eexists. split_and!.
    + apply elem_of_app; right. apply elem_of_app; left.
      apply list_elem_of_further, list_elem_of_here.
    + done.
    + done.
Qed.

Lemma debug_log_holds_credentials_witness :
  (("Authorization", "ds-secret") ∈ CUSTOM_HEADERS cfg_ds_only)
  ∧ ∃ r d, r ∈ emitted DEBUG
                 (log (generic_proxy_handler cfg_ds_only
                         unreachable_upstream request_with_other_key
                         "/chat/completions" {| log := []; sent := [] |}).2)
           ∧ lr_format r = "Headers to be sent: {}"
           ∧ lr_args r = [LDict d] ∧ ("Authorization", "ds-secret") ∈ d.
Proof.
  assert (("Authorization", "ds-secret") ∈ CUSTOM_HEADERS cfg_ds_only) as Hin.
  { apply (bool_decide_unpack _). vm_compute. reflexivity. }
  split; [exact Hin|].
  exact (proj1 (debug_log_holds_credentials cfg_ds_only
           unreachable_upstream request_with_other_key "/chat/completions"
           {| log := []; sent := [] |} "Authorization" "ds-secret" Hin)).
Defined.

(** ** The logging threshold *)

Section case_facts.
Implicit Types (c a : ascii) (s name : string).

Lemma upper_of_lowered c :
  (97 ≤ N_of_ascii (lower_char c) ≤ 122)%N →
  upper_char c = [(N_of_ascii (lower_char c) - 32)%N].
Proof.
  destruct c as [[] [] [] [] [] [] [] []]; intros [H1 H2];
    first [ reflexivity
          | exfalso; vm_compute in H1; by apply H1
          | exfalso; vm_compute in H2; by apply H2 ].
Qed.

Lemma lowered_of_upper c n :
  upper_char c = [n] → (65 ≤ n ≤ 90)%N →
  N_of_ascii (lower_char c) = (n + 32)%N.
Proof.
  destruct c as [[] [] [] [] [] [] [] []]; intros Heq [H1 H2];
    vm_compute in Heq;
    first [ discriminate Heq
          | injection Heq as <-;
            first [ reflexivity
                  | exfalso; vm_compute in H1; by apply H1
                  | exfalso; vm_compute in H2; by apply H2 ] ].
Qed.

Lemma lower_capital a :
  (65 ≤ N_of_ascii a ≤ 90)%N →
  N_of_ascii (lower_char a) = (N_of_ascii a + 32)%N.
Proof.
  destruct a as [[] [] [] [] [] [] [] []]; intros [H1 H2];
    first [ reflexivity
          | exfalso; vm_compute in H1; by apply H1
          | exfalso; vm_compute in H2; by apply H2 ].
Qed.

Lemma upper_char_shape c :
  upper_char c = [83%N; 83%N] ∨ ∃ n, upper_char c = [n].
Proof. unfold upper_char. repeat case_match; eauto. Qed.

Lemma N_of_ascii_inj a c : N_of_ascii a = N_of_ascii c → a = c.
Proof.
  intros E. by rewrite <- (ascii_N_embedding a), <- (ascii_N_embedding c), E.
Qed.

(** A string that lower-cases like a name in capitals upper-cases to it. *)
Lemma upper_of_same_lower s name :
  capitals name → lower s = lower name → upper s = code_points name.
Proof.
  unfold capitals, upper, code_points.
  revert name. induction s as [|c s IH]; intros [|a name] Hcap Hl;
    simpl in *; try done.
  apply Forall_cons in Hcap as [Ha Hcap]. injection Hl as Hc Hl.
  pose proof (lower_capital a Ha) as Hla.
  rewrite upper_of_lowered by (rewrite Hc, Hla; lia).
  rewrite Hc, Hla, (IH name Hcap Hl). simpl. f_equal. lia.
Qed.

(** A string that upper-cases to a name in capitals without the letter S
    lower-cases like it. *)
Lemma same_lower_of_upper s name :
  capitals name → 83%N ∉ code_points name →
  upper s = code_points name → lower s = lower name.
Proof.
  unfold capitals, upper, code_points.
  revert name. induction s as [|c s IH]; intros name Hcap HS Hu; simpl in *.
  - destruct name; [done|discriminate Hu].
  - destruct (upper_char_shape c) as [E|[n E]]; rewrite E in Hu; simpl in Hu.
    + destruct name as [|a name]; [discriminate Hu|]. simpl in *.
      injection Hu as Ha _. exfalso. apply HS. rewrite <- Ha. by left.
    + destruct name as [|a name]; [discriminate Hu|]. simpl in *.
      injection Hu as Ha Hu. subst n.
      apply Forall_cons in Hcap as [Hac Hcap].
      apply not_elem_of_cons in HS as [_ HS].
      rewrite (IH name Hcap HS Hu). f_equal.
      apply N_of_ascii_inj.
      by rewrite (lowered_of_upper c _ E Hac), (lower_capital a Hac).
Qed.

Lemma level_name_capitals (l : level) :
  capitals (level_name l) ∧ 83%N ∉ code_points (level_name l).
Proof.
  split.
  - destruct l; unfold capitals; simpl; repeat constructor; by vm_compute.
  - destruct l; apply (bool_decide_unpack _); reflexivity.
Qed.

End case_facts.

(** X13. The logging threshold is read from [LOG_LEVEL] without regard to
    letter case: a value that spells DEBUG, INFO, WARNING, ERROR or
    CRITICAL in any mix of capital and small letters selects that level,
    and an unset variable gives INFO. A value made of ASCII characters
    that selects a level other than INFO spells the name of that level, so
    that every other ASCII value gives INFO, no error being raised. *)
Theorem log_level_from_env (env : gmap string string) (s : string) (l : level) :
  (env !! "LOG_LEVEL" = None → LOG_LEVEL env = INFO)
  ∧ (env !! "LOG_LEVEL" = Some s → lower s = lower (level_name l) →
       LOG_LEVEL env = l)
  ∧ (env !! "LOG_LEVEL" = Some s →
     Forall (λ c, (N_of_ascii c < 128)%N) (list_ascii_of_string s) →
     LOG_LEVEL env ≠ INFO →
       lower s = lower (level_name (LOG_LEVEL env))).
Proof.
  split_and!.
  - intros Hnone. unfold LOG_LEVEL, LOG_LEVEL_STR, getenv. rewrite Hnone.
    reflexivity.
  - intros Hs Hl. unfold LOG_LEVEL, LOG_LEVEL_STR, getenv. rewrite Hs. simpl.
    rewrite (upper_of_same_lower s _ (proj1 (level_name_capitals l)) Hl).
    by destruct l.
  - intros Hs _. unfold LOG_LEVEL, LOG_LEVEL_STR, getenv. rewrite Hs. simpl.
    unfold LOG_LEVEL_MAP. cbn [List.find fst snd].
    repeat case_bool_decide; cbn [snd]; intros Hne; try done;
      match goal with
      | E : code_points ?name = upper s |- _ =>
          symmetry in E;
          first [ exact (same_lower_of_upper s "DEBUG"
                           (proj1 (level_name_capitals DEBUG))
                           (proj2 (level_name_capitals DEBUG)) E)
                | exact (same_lower_of_upper s "WARNING"
                           (proj1 (level_name_capitals WARNING))
                           (proj2 (level_name_capitals WARNING)) E)
                | exact (same_lower_of_upper s "ERROR"
                           (proj1 (level_name_capitals ERROR))
                           (proj2 (level_name_capitals ERROR)) E)
                | exact (same_lower_of_upper s "CRITICAL"
                           (proj1 (level_name_capitals CRITICAL))
                           (proj2 (level_name_capitals CRITICAL)) E) ]
      end.
Qed.

Lemma log_level_from_env_witness :
  env_debug !! "LOG_LEVEL" = Some "debug"
  ∧ lower "debug" = lower (level_name DEBUG)
  ∧ Forall (λ c, (N_of_ascii c < 128)%N) (list_ascii_of_string "debug")
  ∧ LOG_LEVEL env_debug = DEBUG
  ∧ lower "debug" = lower (level_name (LOG_LEVEL env_debug)).
Proof.
  assert (env_debug !! "LOG_LEVEL" = Some "debug") as Hs by reflexivity.
  assert (Forall (λ c, (N_of_ascii c < 128)%N) (list_ascii_of_string "debug"))
    as Hascii by (repeat constructor).
  pose proof (proj1 (proj2 (log_level_from_env env_debug "debug" DEBUG))
                Hs eq_refl) as Hlevel.
  assert (LOG_LEVEL env_debug ≠ INFO) as Hne by (rewrite Hlevel; discriminate).
  split_and!; [exact Hs|reflexivity|exact Hascii|exact Hlevel|].
  exact (proj2 (proj2 (log_level_from_env env_debug "debug" DEBUG))
           Hs Hascii Hne).
Defined.

(** ** Routing *)

Section route_facts.
Implicit Types (s t u rest path : string).

Lemma substring_all s : String.substring 0 (String.length s) s = s.
Proof. induction s as [|c s IH]; simpl; [done|]. by rewrite IH. Qed.

Lemma matches_root_v1 rest : matches_root ("/v1" +:+ rest) = false.
Proof. reflexivity. Qed.

Lemma match_v1_rest rest : match_v1 ("/v1" +:+ rest) = match_to_end rest.
Proof.
  unfold match_v1. rewrite (prefix_app "/v1" rest).
  change (String.substring 3 (String.length ("/v1" +:+ rest) - 3) ("/v1" +:+ rest))
    with (String.substring 0 (String.length rest - 0) rest).
  by rewrite Nat.sub_0_r, substring_all.
Qed.

(** Without a line feed the whole string is the group. *)
Lemma match_to_end_plain s :
  LF ∉ list_ascii_of_string s → match_to_end s = Some s.
Proof.
  induction s as [|c s IH]; simpl; [done|].
  intros [Hc Hs]%not_elem_of_cons.
  destruct (Ascii.eqb_spec c LF) as [->|_]; [done|]. by rewrite IH.
Qed.

(** One line feed at the very end is left out of the group. *)
Lemma match_to_end_final_LF s :
  LF ∉ list_ascii_of_string s →
  match_to_end (s +:+ String LF EmptyString) = Some s.
Proof.
  induction s as [|c s IH]; simpl; [done|].
  intros [Hc Hs]%not_elem_of_cons.
  destruct (Ascii.eqb_spec c LF) as [->|_]; [done|]. by rewrite IH.
Qed.

(** A line feed with something after it leaves no match. *)
Lemma match_to_end_inner_LF t u :
  u ≠ EmptyString → match_to_end (t +:+ String LF u) = None.
Proof.
  intros Hu. induction t as [|c t IH]; simpl.
  - by destruct u.
  - destruct (Ascii.eqb_spec c LF) as [->|_].
    + by destruct t.
    + by rewrite IH.
Qed.

End route_facts.

(** X14. A request with one of the seven listed methods on a path made of
    [/v1] and a rest without line feed is answered by
    [generic_proxy_handler] with that rest as [full_path]: one call goes
    upstream, to the base URL followed by the rest, with the request's
    method and body unchanged and a timeout of 30 seconds. The prefix is
    matched on characters, so [/v1beta] is taken too, with [beta] as the
    rest. A line feed at the very end of the path is left out: the request
    is answered like the one without it. *)
Theorem v1_route_forwards_rest (cfg : ProxyConfig)
    (upstream : client_request -> outcome) (request : Request)
    (rest : string) (w : world) :
  method request ∈ proxied_methods →
  LF ∉ list_ascii_of_string rest →
  (app cfg upstream ("/v1" +:+ rest) request w).1
    = Some (generic_proxy_handler cfg upstream request rest w).1
  ∧ sent (app cfg upstream ("/v1" +:+ rest) request w).2
    = sent w ++ [{| cr_method := method request;
                    cr_url := LITELLM_BASE_URL cfg +:+ rest;
                    cr_params := outbound_params cfg (query_params request);
                    cr_headers := outbound_headers cfg (headers request);
                    cr_content := body request;
                    cr_timeout := 30 |}]
  ∧ app cfg upstream ("/v1" +:+ rest +:+ String LF EmptyString) request w
    = app cfg upstream ("/v1" +:+ rest) request w.
Proof.
  intros Hm Hrest.
  assert (∀ path, matches_root path = false → match_v1 path = Some rest →
            app cfg upstream path request w
            = let (r, w') := generic_proxy_handler cfg upstream request rest w in
              (Some r, w')) as Happ.
  { intros path Hroot Hv1. unfold app.
    rewrite Hroot, Hv1, (bool_decide_eq_true_2 _ Hm). reflexivity. }
  pose proof (Happ _ (matches_root_v1 rest)
                (eq_trans (match_v1_rest rest) (match_to_end_plain rest Hrest)))
    as Hplain.
  pose proof (Happ _ (matches_root_v1 (rest +:+ String LF EmptyString))
                (eq_trans (match_v1_rest _) (match_to_end_final_LF rest Hrest)))
    as Hfinal.
  rewrite Hfinal, Hplain.
  pose proof (handler_sends cfg upstream request rest w) as Hsent.
  destruct (generic_proxy_handler cfg upstream request rest w) as [r w'].
  split_and!; [done|exact Hsent|done].
Qed.

Lemma v1_route_forwards_rest_witness :
  (method request_with_other_key ∈ proxied_methods)
  ∧ (LF ∉ list_ascii_of_string "/chat/completions")
  ∧ cr_url <$> last (sent (app cfg_both answering_upstream "/v1/chat/completions"
                             request_with_other_key {| log := []; sent := [] |}).2)
    = Some "https://llm.api.domain.com/v1/chat/completions".
Proof.
  assert (method request_with_other_key ∈ proxied_methods) as Hm.
  { apply (bool_decide_unpack _). reflexivity. }
  assert (LF ∉ list_ascii_of_string "/chat/completions") as Hrest.
  { apply (bool_decide_unpack _). reflexivity. }
  split_and!; [exact Hm|exact Hrest|].
  pose proof (proj1 (proj2 (v1_route_forwards_rest cfg_both answering_upstream
                       request_with_other_key "/chat/completions"
                       {| log := []; sent := [] |} Hm Hrest))) as Hsent.
  change ("/v1" +:+ "/chat/completions") with "/v1/chat/completions" in Hsent.
  rewrite Hsent. reflexivity.
Defined.

(** X15. Nothing goes upstream, and nothing is logged, for a request that
    neither route takes: one whose method is not one of the seven listed
    ones, whatever its path; one whose path is not [/], is not [/] followed
    by a line feed and does not start with [/v1]; and one whose path starts
    with [/v1] and has a line feed that is not its last character. *)
Theorem other_requests_not_forwarded (cfg : ProxyConfig)
    (upstream : client_request -> outcome) (path : string) (request : Request)
    (w : world) :
  method request ∉ proxied_methods
  ∨ (path ≠ "/" ∧ path ≠ root_with_LF ∧ String.prefix "/v1" path = false)
  ∨ (∃ t u, u ≠ EmptyString ∧ path = "/v1" +:+ t +:+ String LF u) →
  app cfg upstream path request w = (None, w).
Proof.
  intros [Hm|[(Hp1 & Hp2 & Hp3)|(t & u & Hu & ->)]]; unfold app.
  - assert (String.eqb (method request) "GET" = false) as ->.
    { apply String.eqb_neq. intros E. apply Hm. rewrite E.
      apply (bool_decide_unpack _). reflexivity. }
    rewrite andb_false_r, (bool_decide_eq_false_2 _ Hm).
    by destruct (match_v1 path).
  - assert (matches_root path = false) as ->.
    { unfold matches_root. apply orb_false_iff. by rewrite !String.eqb_neq. }
    unfold match_v1. by rewrite Hp3.
  - rewrite matches_root_v1, match_v1_rest, (match_to_end_inner_LF t u Hu).
    reflexivity.
Qed.

Lemma other_requests_not_forwarded_witness :
  ("TRACE" ∉ proxied_methods)
  ∧ app cfg_both answering_upstream "/v1/models"
      {| method := "TRACE"; url := "http://proxy.local/v1/models";
         query_params := []; headers := []; body := [] |}
      {| log := []; sent := [] |}
    = (None, {| log := []; sent := [] |}).
Proof.
  assert ("TRACE" ∉ proxied_methods) as Hm.
  { apply (bool_decide_unpack _). reflexivity. }
  split; [exact Hm|].
  exact (other_requests_not_forwarded cfg_both answering_upstream "/v1/models"
           {| method := "TRACE"; url := "http://proxy.local/v1/models";
              query_params := []; headers := []; body := [] |}
           {| log := []; sent := [] |} (or_introl Hm)).
Defined.

(** ** What is relayed of a reply *)

Section relay_facts.
Implicit Types (d lines : list (string * ustr)) (k : string) (v : ustr).





End relay_facts.



Section relay_failure_facts.
Implicit Types (d lines : list (string * ustr)) (k : string) (v : ustr) (n : N).

Lemma latin1_None v : latin1 v = None → Exists (λ n, (256 ≤ n)%N) v.
Proof.
  induction v as [|n v IH]; simpl; [done|].
  destruct (N.ltb_spec n 256) as [_|Hge]; [|intros _; by left].
  destruct (latin1 v); [done|]. intros _. right. by apply IH.
Qed.

Lemma latin1_Some v b : latin1 v = Some b → Forall (λ n, (n < 256)%N) v.
Proof.
  revert b. induction v as [|n v IH]; intros b; simpl; [by constructor|].
  destruct (N.ltb_spec n 256) as [Hlt|_]; [|done].
  destruct (latin1 v) as [b'|]; [|done]. intros _. constructor; [done|].
  by apply (IH b').
Qed.

(** The encoding raises on the first value that does not fit. *)
Lemma encode_headers_raises lines :
  Exists (λ kv, Exists (λ n, (256 ≤ n)%N) kv.2) lines →
  ∃ v, encode_headers lines = inr (UnicodeEncodeError "latin-1" v)
       ∧ Exists (λ n, (256 ≤ n)%N) v.
Proof.
  induction lines as [|[k v] lines IH]; intros Hex; [by apply Exists_nil in Hex|].
  simpl. destruct (latin1 v) as [b|] eqn:Hv.
  - apply Exists_cons in Hex as [Hhere|Hlater].
    + exfalso. apply latin1_Some in Hv. simpl in Hhere.
      apply Exists_exists in Hhere as (n & Hn & Hge).
      rewrite Forall_forall in Hv. specialize (Hv n Hn). lia.
    + destruct (IH Hlater) as (v' & -> & Hv'). by exists v'.
  - exists v. split; [done|]. by apply latin1_None.
Qed.

(** A code point of a header value is still there after the joining. *)
Lemma join_header_keeps d k v n :
  (Exists (λ kv, n ∈ kv.2) d ∨ n ∈ v) →
  Exists (λ kv, n ∈ kv.2) (join_header d k v).
Proof.
  induction d as [|[k' v'] d IH]; simpl.
  - intros [Hd|Hv]; [by apply Exists_nil in Hd|]. by left.
  - destruct (String.eqb k' k).
    + intros [[Hhere|Hlater]%Exists_cons|Hv].
      * left. simpl in *. apply elem_of_app. by left.
      * by right.
      * left. simpl. apply elem_of_app. right.
        by do 2 apply list_elem_of_further.
    + intros [[Hhere|Hlater]%Exists_cons|Hv].
      * by left.
      * right. apply IH. by left.
      * right. apply IH. by right.
Qed.

Lemma joined_headers_keep lines n :
  Exists (λ kv, n ∈ kv.2) lines →
  Exists (λ kv, n ∈ kv.2) (joined_headers lines).
Proof.
  unfold joined_headers.
  assert (∀ d, Exists (λ kv, n ∈ kv.2) d ∨ Exists (λ kv, n ∈ kv.2) lines →
            Exists (λ kv, n ∈ kv.2)
              (fold_left (fun d kv => join_header d (lower_ascii kv.1) kv.2)
                 lines d)) as Hfold.
  { induction lines as [|[k v] lines IH]; intros d; simpl.
    - intros [Hd|Hl]; [done|by apply Exists_nil in Hl].
    - intros [Hd|[Hhere|Hlater]%Exists_cons].
      + apply IH. left. apply join_header_keeps. by left.
      + apply IH. left. apply join_header_keeps. by right.
      + apply IH. by right. }
  intros Hex. apply Hfold. by right.
Qed.

End relay_failure_facts.

(** X17. When the upstream call returns a reply with a header value that
    holds a code point above 255, nothing of the reply is relayed: building
    the [Response] raises inside the [try] block and the handler answers
    with status 500, no headers, and the sentence for unexpected errors
    followed by the encoding error of a value that does not fit. *)
Theorem reply_with_wide_header_gives_500 (cfg : ProxyConfig)
    (upstream : client_request -> outcome) (request : Request)
    (full_path : string) (w : world) (reply : upstream_reply) :
  upstream (outbound_request cfg request full_path) = Replied reply →
  Exists (λ kv, Exists (λ n, (256 ≤ n)%N) kv.2) (reply_headers reply) →
  ∃ v,
    (generic_proxy_handler cfg upstream request full_path w).1
      = {| resp_content :=
             TextRaised "An unexpected error occurred: "
               (UnicodeEncodeError "latin-1" v);
           resp_status := 500;
           resp_headers := None |}
    ∧ Exists (λ n, (256 ≤ n)%N) v.
Proof.
  intros Hup Hwide. unfold outbound_request in Hup.
  destruct (encode_headers_raises (joined_headers (reply_headers reply)))
    as (v & Henc & Hv).
  { apply Exists_exists in Hwide as ([k v] & Hin & Hex).
    apply Exists_exists in Hex as (n & Hn & Hge).
    assert (Exists (λ kv : string * ustr, n ∈ kv.2)
              (joined_headers (reply_headers reply))) as Hkept.
    { apply joined_headers_keep, Exists_exists. by exists (k, v). }
    apply Exists_exists in Hkept as (kv' & Hin' & Hn').
    apply Exists_exists. exists kv'. split; [done|].
    apply Exists_exists. by exists n. }
  exists v. split; [|done].
  unfold generic_proxy_handler, bind, logger, client_call, ret. simpl.
  rewrite Hup. simpl. unfold relay_response. by rewrite Henc.
Qed.

Lemma reply_with_wide_header_gives_500_witness :
  (λ _ : client_request, Replied euro_reply)
      (outbound_request cfg_both request_with_other_key "/chat/completions")
    = Replied euro_reply
  ∧ Exists (λ kv, Exists (λ n, (256 ≤ n)%N) kv.2) (reply_headers euro_reply)
  ∧ ∃ v,
      (generic_proxy_handler cfg_both (λ _, Replied euro_reply)
         request_with_other_key "/chat/completions"
         {| log := []; sent := [] |}).1
      = {| resp_content :=
             TextRaised "An unexpected error occurred: "
               (UnicodeEncodeError "latin-1" v);
           resp_status := 500;
           resp_headers := None |}
      ∧ Exists (λ n, (256 ≤ n)%N) v.
Proof.
  assert (Exists (λ kv, Exists (λ n, (256 ≤ n)%N) kv.2)
            (reply_headers euro_reply)) as Hwide.
  { left. left. simpl. lia. }
  split_and!; [reflexivity|exact Hwide|].
  exact (reply_with_wide_header_gives_500 cfg_both (λ _, Replied euro_reply)
           request_with_other_key "/chat/completions"
           {| log := []; sent := [] |} euro_reply eq_refl Hwide).
Defined.
